(** * Symbol table, position resolver and type inference of the language server

    A shallow embedding of [symbol.go] and [server.go].  The syntax tree
    comes from the external [parser] package; its node types are declared
    here with the fields the two source files read.  A Go interface value
    ([parser.Statement], [parser.Expression], [parser.TypeNode]) is an
    inductive type with one constructor for the nil interface and one per
    concrete node type; a pointer or a slice that the code compares with
    nil is an [option], any other pointer is taken to point to its node.
    Scopes are heap objects that the builder mutates in place: the heap
    is a list of scopes, an address is an index into it.  Go's [int] is a
    64-bit two's complement integer, kept as a [Z] with the wrap-around
    of [+] and [-] written out.  Logging is not modelled. *)

From Stdlib Require Import ZArith Lia.
From stdpp Require Import base option list gmap strings.

Local Open Scope Z_scope.
#[local] Set Warnings "-register-all".
#[local] Set Warnings "-automation".

(** ** Go integers *)

Definition int_min : Z := - 2 ^ 63.
Definition int_max : Z := 2 ^ 63 - 1.

Definition wrap (z : Z) : Z := (z + 2 ^ 63) mod 2 ^ 64 - 2 ^ 63.

Definition int_add (a b : Z) : Z := wrap (a + b).
Definition int_sub (a b : Z) : Z := wrap (a - b).

Definition in_int (z : Z) : Prop := int_min <= z <= int_max.

(** [len(s)] of a Go string: its number of bytes. *)
Definition len (s : string) : Z := Z.of_nat (String.length s).

(** ** Panics *)

Inductive result (A : Type) : Type :=
| Ok (a : A)
| Panic (msg : string).
Arguments Ok {A} a.
Arguments Panic {A} msg.

Definition result_bind {A B} (r : result A) (k : A -> result B) : result B :=
  match r with
  | Ok a => k a
  | Panic msg => Panic msg
  end.

#[global] Instance result_mbind : MBind result := fun A B k r => result_bind r k.

(** The message of a nil pointer dereference. *)
Definition nil_deref : string := "invalid memory address or nil pointer dereference".

(** ** Tokens and syntax tree (package [token] and [parser]) *)

Module Token.
Record t : Type := mk { Literal : string; Line : Z; Column : Z }.
End Token.

Module NodeBase.
Record t : Type := mk { Token : Token.t }.
End NodeBase.

Module Identifier.
Record t : Type := mk { NodeBase : NodeBase.t; Value : string }.
End Identifier.

(** A field of a struct type: the code reads [Name] only, after testing
    the field pointer and the name pointer against nil. *)
Module StructField.
Record t : Type := mk { Name : option Identifier.t }.
End StructField.

Inductive TypeNode : Type :=
| NilType
| IdentType (base : NodeBase.t) (Name : string)
| ArrayType (Elem : TypeNode)
| StructType (Fields : list (option StructField.t))
| OtherType.

(** [Ident] is a [*parser.Identifier] in the place of an expression; the
    fields of a struct literal are its values in the order a [range]
    over them visits them. *)
Inductive Expression : Type :=
| NilExpr
| Ident (n : Identifier.t)
| IntLiteral (v : Z)
| FloatLiteral (text : string)
| StringLiteral (v : string)
| BoolLiteral (v : bool)
| ArrayLiteral (Elements : list Expression)
| AnonymousStructLiteral
| StructLiteral (TypeName : Identifier.t) (Fields : list Expression)
| InfixExpression (Left : Expression) (Operator : string) (Right : Expression)
| PrefixExpression (Operator : string) (Right : Expression)
| IndexExpression (Left Index : Expression)
| MemberExpression (Left : Expression) (Field : Identifier.t)
| FuncCall (Name : Identifier.t) (Args : list Expression)
| OtherExpr.

(** A parameter of a function: [Token] is read for logging only. *)
Module Param.
Record t : Type := mk { Token : Token.t; Name : Identifier.t; Type_ : TypeNode }.
End Param.

Inductive Statement : Type :=
| NilStmt
| ExpressionStatement (e : Expression)
| VarStatement (Name : option Identifier.t) (Type_ : TypeNode) (Value : Expression)
| VarStatementNoKeyword (Name : option Identifier.t) (Value : Expression)
| ConstStatement (Name : option Identifier.t) (Type_ : TypeNode) (Value : Expression)
| MultiVarStatement (Names : option (list Identifier.t)) (Type_ : TypeNode)
    (Value : Expression)
| MultiVarStatementNoKeyword (Names : option (list Identifier.t)) (Value : Expression)
| MultiConstStatement (Names : option (list Identifier.t)) (Type_ : TypeNode)
    (Value : Expression)
| AssignmentStatement (Name : Identifier.t) (Value : Expression)
| MultiAssignmentStatement (Names : list Identifier.t) (Value : Expression)
| IndexAssignmentStatement (Left Index Value : Expression)
| FuncStatement (Name : option Identifier.t) (Params : list Param.t)
    (Body : list Statement)
| SpawnStatement (Body : list Statement)
| TypeStatement (base : NodeBase.t) (Name : option Identifier.t) (Type_ : TypeNode)
| IfStatement (Condition : Expression) (Consequence : list Statement)
    (Alternative : option (list Statement))
| ForStatement (Init : Statement) (Condition : Expression) (Post : Statement)
    (Body : list Statement)
| WhileStatement (Condition : Expression) (Body : list Statement)
| OtherStmt.

(** ** Symbols and scopes ([symbol.go]) *)

Inductive SymbolKind : Type :=
| SymVar | SymConst | SymFunc | SymParam | SymType | SymUserType | SymStructField.

Module Symbol.
Inductive t : Type :=
  mk (Kind : SymbolKind) (Name : string) (Ident : option Identifier.t)
     (Type_ : TypeNode) (Value : Expression) (Parent : option t).
Definition Kind (s : t) := let (k, _, _, _, _, _) := s in k.
Definition Name (s : t) := let (_, n, _, _, _, _) := s in n.
Definition Ident (s : t) := let (_, _, i, _, _, _) := s in i.
Definition Type_ (s : t) := let (_, _, _, ty, _, _) := s in ty.
Definition Value (s : t) := let (_, _, _, _, v, _) := s in v.
Definition Parent (s : t) := let (_, _, _, _, _, p) := s in p.
End Symbol.

Module Scope.
Record t : Type := mk { Parent : option nat; Symbols : gmap string Symbol.t }.
End Scope.

(** The heap of scopes; [NewScope] allocates at the end. *)
Abbreviation Heap := (list Scope.t).

(** A computation over the heap that may panic; the heap it has reached
    survives the panic, which is what a recovering caller sees. *)
Definition M (A : Type) : Type := Heap -> Heap * result A.

Definition ret {A} (a : A) : M A := fun h => (h, Ok a).
Definition panic {A} (msg : string) : M A := fun h => (h, Panic msg).
Definition bind {A B} (m : M A) (k : A -> M B) : M B :=
  fun h => match m h with
           | (h', Ok a) => k a h'
           | (h', Panic msg) => (h', Panic msg)
           end.

Notation "x <- m ;; k" := (bind m (fun x => k))
  (at level 100, m at next level, right associativity).
Notation "m ;;; k" := (bind m (fun _ => k))
  (at level 100, right associativity).

(** [defer func() { recover() }()]: the call returns normally, with the
    heap as the panic left it. *)
Definition recover (m : M unit) : M unit := fun h => (fst (m h), Ok tt).

Definition NewScope (parent : option nat) : M nat :=
  fun h => (h ++ [Scope.mk parent ∅], Ok (length h)).

Definition Define (s : nat) (sym : Symbol.t) : M unit :=
  fun h =>
    match h !! s with
    | None => (h, Panic nil_deref)
    | Some sc =>
        match Scope.Symbols sc !! Symbol.Name sym with
        | Some _ => (h, Panic ("redeclaration of " +:+ Symbol.Name sym))
        | None =>
            (<[s := Scope.mk (Scope.Parent sc)
                      (<[Symbol.Name sym := sym]> (Scope.Symbols sc))]> h, Ok tt)
        end
    end.

(** [Resolve]: the loop over the parent links.  The loop runs at most
    once per scope of the heap, since a parent is older than its child. *)
Fixpoint ResolveFrom (fuel : nat) (h : Heap) (scope : option nat) (name : string)
  : option Symbol.t :=
  match fuel, scope with
  | S fuel', Some a =>
      match h !! a with
      | Some sc =>
          match Scope.Symbols sc !! name with
          | Some sym => Some sym
          | None => ResolveFrom fuel' h (Scope.Parent sc) name
          end
      | None => None
      end
  | _, _ => None
  end.

Definition Resolve (h : Heap) (s : option nat) (name : string) : option Symbol.t :=
  ResolveFrom (length h) h s name.

(** A [for ... range] loop over a slice: the iterations in order; a panic
    in one of them ends the loop. *)
Section Range.
Context {A : Type} (body : A -> M unit).

Fixpoint range (l : list A) : M unit :=
  match l with
  | [] => ret tt
  | x :: l' => body x ;;; range l'
  end.
End Range.

Definition newline : string := String (Ascii.ascii_of_nat 10) EmptyString.

(** The field-name loop of the builder's [TypeStatement] case: it reads
    [field.Name.Value] without a nil test. *)
Fixpoint buildFieldNames (fields : list (option StructField.t)) (acc : string)
  : result string :=
  match fields with
  | [] => Ok acc
  | Some (StructField.mk (Some name)) :: rest =>
      buildFieldNames rest (acc +:+ Identifier.Value name +:+ newline)
  | _ :: _ => Panic nil_deref
  end.

(** What [%T] prints for a type node; the sources name three node types,
    any other one is printed as the interface. *)
Definition dynTypeName (t : TypeNode) : string :=
  match t with
  | NilType => "<nil>"
  | IdentType _ _ => "*parser.IdentType"
  | ArrayType _ => "*parser.ArrayType"
  | StructType _ => "*parser.StructType"
  | OtherType => "*parser.TypeNode"
  end.

Definition buildTypeName (t : TypeNode) : result string :=
  match t with
  | IdentType _ name => Ok name
  | StructType fields =>
      result_bind (buildFieldNames fields EmptyString)
        (fun fieldNames => Ok ("struct {" +:+ newline +:+ fieldNames +:+ "}"))
  | _ => Panic ("unknown TypeStatement.Type: " +:+ dynTypeName t)
  end.

Definition lift {A} (r : result A) : M A := fun h => (h, r).

(** One iteration of the statement loop of [buildInScope], in scope
    [scope].  The nested calls of [buildInScope] are written out as
    [recover (range (buildStmt child) body)]; see [buildInScope] below. *)
Fixpoint buildStmt (scope : nat) (stmt : Statement) {struct stmt} : M unit :=
  match stmt with
  | NilStmt => ret tt
  | VarStatement Name Type_ Value =>
      match Name with
      | None => panic "VarStatement.Name is nil"
      | Some n =>
          Define scope (Symbol.mk SymVar (Identifier.Value n) (Some n) Type_ Value None)
      end
  | VarStatementNoKeyword Name Value =>
      match Name with
      | None => panic "VarStatementNoKeyword.Name is nil"
      | Some n =>
          Define scope (Symbol.mk SymVar (Identifier.Value n) (Some n) NilType Value None)
      end
  | ConstStatement Name Type_ Value =>
      match Name with
      | None => panic "ConstStatement.Name is nil"
      | Some n =>
          Define scope (Symbol.mk SymConst (Identifier.Value n) (Some n) Type_ Value None)
      end
  | MultiVarStatement Names Type_ Value =>
      match Names with
      | None => panic "MultiVarStatement.Names is nil"
      | Some names =>
          range (fun name =>
                   Define scope (Symbol.mk SymVar (Identifier.Value name) (Some name)
                                   Type_ Value None)) names
      end
  | MultiVarStatementNoKeyword Names Value =>
      match Names with
      | None => panic "MultiVarStatementNoKeyword.Names is nil"
      | Some names =>
          range (fun name =>
                   Define scope (Symbol.mk SymVar (Identifier.Value name) (Some name)
                                   NilType Value None)) names
      end
  | MultiConstStatement Names Type_ Value =>
      match Names with
      | None => panic "MultiConstStatement.Names is nil"
      | Some names =>
          range (fun name =>
                   Define scope (Symbol.mk SymConst (Identifier.Value name) (Some name)
                                   Type_ Value None)) names
      end
  | FuncStatement Name Params Body =>
      match Name with
      | None => panic "FuncStatement.Name is nil"
      | Some n =>
          Define scope (Symbol.mk SymFunc (Identifier.Value n) (Some n)
                          NilType NilExpr None) ;;;
          fnScope <- NewScope (Some scope) ;;
          range (fun p =>
                   Define fnScope
                     (Symbol.mk SymParam (Identifier.Value (Param.Name p))
                        (Some (Param.Name p)) (Param.Type_ p) NilExpr None)) Params ;;;
          recover (range (buildStmt fnScope) Body)
      end
  | TypeStatement base Name Type_ =>
      match Name with
      | None => panic "TypeStatement.Name is nil"
      | Some n =>
          typeName <- lift (buildTypeName Type_) ;;
          Define scope (Symbol.mk SymUserType (Identifier.Value n) (Some n)
                          (IdentType base typeName) NilExpr None)
      end
  | ForStatement Init _ _ Body =>
      loopScope <- NewScope (Some scope) ;;
      match Init with
      | NilStmt => ret tt
      | _ => recover (range (buildStmt loopScope) [Init])
      end ;;;
      recover (range (buildStmt loopScope) Body)
  | WhileStatement _ Body =>
      loopScope <- NewScope (Some scope) ;;
      recover (range (buildStmt loopScope) Body)
  | IfStatement _ Consequence Alternative =>
      thenScope <- NewScope (Some scope) ;;
      recover (range (buildStmt thenScope) Consequence) ;;;
      match Alternative with
      | None => ret tt
      | Some alt =>
          elseScope <- NewScope (Some scope) ;;
          recover (range (buildStmt elseScope) alt)
      end
  | _ => ret tt
  end.

Definition buildInScope (scope : nat) (stmts : list Statement) : M unit :=
  recover (range (buildStmt scope) stmts).

Definition builtinTypes : list string := ["int"; "float"; "string"; "bool"; "arr"].

Definition builtinSymbol (t : string) : Symbol.t :=
  Symbol.mk SymType t None NilType NilExpr None.

(** [BuildSymbols]: the heap that holds the scopes and the address of the
    root scope.  A panic of a built-in [Define] is not recovered. *)
Definition BuildSymbols (stmts : list Statement) : Heap * result nat :=
  (root <- NewScope None ;;
   range (fun t => Define root (builtinSymbol t)) builtinTypes ;;;
   buildInScope root stmts ;;;
   ret root) [].

(** ** Position resolver ([server.go]) *)

Module Position.
Record t : Type := mk { Line : Z; Character : Z }.
End Position.

Module Range.
Record t : Type := mk { Start : Position.t; End_ : Position.t }.
End Range.

Definition posInsideTok (tok : Token.t) (pos : Position.t) : bool :=
  let line := int_sub (Token.Line tok) 1 in
  let startCol := int_sub (Token.Column tok) 1 in
  let endCol := startCol in
  let startCol := int_sub startCol (len (Token.Literal tok)) in
  if negb (Position.Line pos =? line) then false
  else (startCol <=? Position.Character pos) && (Position.Character pos <? endCol).

(** The outcome of a walk: an identifier, nil, or a panic. *)
Definition found : Type := result (option Identifier.t).

(** [if res := ...; res != nil { return res }] followed by [rest]. *)
Definition orElse (r rest : found) : found :=
  match r with
  | Ok None => rest
  | _ => r
  end.

(** A loop that returns the first non-nil result of its body. *)
Section FirstIdent.
Context {A : Type} (walk : A -> found).

Fixpoint firstIdent (l : list A) : found :=
  match l with
  | [] => Ok None
  | x :: l' => orElse (walk x) (firstIdent l')
  end.
End FirstIdent.

(** The [*parser.Identifier] case. *)
Definition walkIdentifier (pos : Position.t) (n : Identifier.t) : found :=
  if posInsideTok (NodeBase.Token (Identifier.NodeBase n)) pos then Ok (Some n)
  else Ok None.

(** [walkForIdent(n.Name, pos)] for a name pointer: a nil pointer in the
    [Node] interface is not the nil interface, the [*parser.Identifier]
    case is taken and reads the token through it. *)
Definition walkName (pos : Position.t) (name : option Identifier.t) : found :=
  match name with
  | None => Panic nil_deref
  | Some n => walkIdentifier pos n
  end.

(** [walkForIdent] on a type node or on a parameter: the switch has no
    case for them. *)
Definition walkTypeNode (pos : Position.t) (t : TypeNode) : found := Ok None.
Definition walkParam (pos : Position.t) (p : Param.t) : found := Ok None.

(** [walkForIdent] on an expression. *)
Fixpoint walkExpr (pos : Position.t) (e : Expression) {struct e} : found :=
  match e with
  | NilExpr => Ok None
  | Ident n => walkIdentifier pos n
  | InfixExpression l _ r => orElse (walkExpr pos l) (walkExpr pos r)
  | IndexExpression l i => orElse (walkExpr pos l) (walkExpr pos i)
  | PrefixExpression _ r => walkExpr pos r
  | MemberExpression l f =>
      orElse (walkExpr pos l) (orElse (walkIdentifier pos f) (Ok None))
  | FuncCall name args =>
      orElse (walkIdentifier pos name) (orElse (firstIdent (walkExpr pos) args) (Ok None))
  | StructLiteral typeName fields =>
      orElse (walkIdentifier pos typeName)
        (orElse (firstIdent (walkExpr pos) fields) (Ok None))
  | _ => Ok None
  end.

(** The field-name loop of the walker's [TypeStatement] case, which skips
    nil fields and nil names. *)
Fixpoint walkFieldNames (fields : list (option StructField.t)) (acc : string) : string :=
  match fields with
  | [] => acc
  | Some (StructField.mk (Some name)) :: rest =>
      walkFieldNames rest (acc +:+ Identifier.Value name +:+ newline)
  | _ :: rest => walkFieldNames rest acc
  end.

(** [walkForIdent] on a statement.  Where the source guards a call with
    [!= nil], the call itself returns nil on the nil value. *)
Fixpoint walkForIdent (pos : Position.t) (n : Statement) {struct n} : found :=
  match n with
  | NilStmt => Ok None
  | ExpressionStatement e => walkExpr pos e
  | TypeStatement base _ t =>
      match t with
      | IdentType _ typeName => Ok (Some (Identifier.mk base typeName))
      | StructType fields =>
          Ok (Some (Identifier.mk base
                      ("struct {" +:+ newline
                       +:+ walkFieldNames fields EmptyString +:+ "}")))
      | _ => Ok (Some (Identifier.mk base "unknown"))
      end
  | VarStatement name t v | ConstStatement name t v =>
      orElse (walkName pos name) (orElse (walkTypeNode pos t) (walkExpr pos v))
  | MultiVarStatement names t v | MultiConstStatement names t v =>
      orElse (firstIdent (walkIdentifier pos) (default [] names))
        (orElse (walkTypeNode pos t) (walkExpr pos v))
  | AssignmentStatement name v =>
      orElse (walkIdentifier pos name) (walkExpr pos v)
  | MultiAssignmentStatement names v =>
      orElse (firstIdent (walkIdentifier pos) names) (walkExpr pos v)
  | IndexAssignmentStatement l i v =>
      orElse (walkExpr pos l) (orElse (walkExpr pos i) (walkExpr pos v))
  | FuncStatement name params body =>
      orElse (walkName pos name)
        (orElse (firstIdent (walkParam pos) params)
           (orElse (firstIdent (walkForIdent pos) body) (Ok None)))
  | SpawnStatement body =>
      orElse (firstIdent (walkForIdent pos) body) (Ok None)
  | IfStatement cond conseq alt =>
      orElse (walkExpr pos cond)
        (orElse (firstIdent (walkForIdent pos) conseq)
           (orElse (match alt with
                    | Some stmts => firstIdent (walkForIdent pos) stmts
                    | None => Ok None
                    end) (Ok None)))
  | ForStatement init cond post body =>
      orElse (walkForIdent pos init)
        (orElse (walkExpr pos cond)
           (orElse (walkForIdent pos post)
              (orElse (firstIdent (walkForIdent pos) body) (Ok None))))
  | WhileStatement cond body =>
      orElse (walkExpr pos cond)
        (orElse (firstIdent (walkForIdent pos) body) (Ok None))
  | VarStatementNoKeyword _ _ | MultiVarStatementNoKeyword _ _ | OtherStmt => Ok None
  end.

Definition findIdentAt (statements : list Statement) (pos : Position.t) : found :=
  firstIdent (walkForIdent pos) statements.

(** ** Type inference ([server.go]) *)

Fixpoint sameTypeNode (a b : TypeNode) {struct a} : bool :=
  match a with
  | IdentType _ na =>
      match b with
      | IdentType _ nb => String.eqb na nb
      | _ => false
      end
  | ArrayType ea =>
      match b with
      | ArrayType eb => sameTypeNode ea eb
      | _ => false
      end
  | _ => false
  end.

Definition isIdent (t : TypeNode) (name : string) : bool :=
  match t with
  | IdentType _ n => String.eqb n name
  | _ => false
  end.

(** The zero value of the embedded node base of a freshly made type node. *)
Definition zeroBase : NodeBase.t := NodeBase.mk (Token.mk EmptyString 0 0).

Definition isNil (t : TypeNode) : bool :=
  match t with
  | NilType => true
  | _ => false
  end.

(** [inferExprType]; the nil type node is the unknown type. *)
Fixpoint inferExprType (h : Heap) (scope : option nat) (expr : Expression)
  {struct expr} : TypeNode :=
  match expr with
  | IntLiteral _ => IdentType zeroBase "int"
  | FloatLiteral _ => IdentType zeroBase "float"
  | StringLiteral _ => IdentType zeroBase "string"
  | BoolLiteral _ => IdentType zeroBase "bool"
  | ArrayLiteral elements =>
      match elements with
      | [] => NilType
      | e0 :: others =>
          let elemType := inferExprType h scope e0 in
          if isNil elemType then NilType
          else if forallb (fun el =>
                             let t := inferExprType h scope el in
                             negb (isNil t || negb (sameTypeNode elemType t))) others
               then ArrayType elemType
               else NilType
      end
  | AnonymousStructLiteral => IdentType zeroBase "struct"
  | StructLiteral typeName _ => IdentType zeroBase (Identifier.Value typeName)
  | InfixExpression l _ r =>
      let left := inferExprType h scope l in
      let right := inferExprType h scope r in
      if isNil left || isNil right then NilType
      else if sameTypeNode left right then left
      else if isIdent left "int" && isIdent right "float"
              || isIdent left "float" && isIdent right "int"
           then IdentType zeroBase "float"
           else NilType
  | PrefixExpression _ r => inferExprType h scope r
  | Ident n =>
      match Resolve h scope (Identifier.Value n) with
      | None => NilType
      | Some sym => Symbol.Type_ sym
      end
  | _ => NilType
  end.

(** ** Hover text ([server.go]) *)

Fixpoint typeNodeToString (t : TypeNode) : string :=
  match t with
  | NilType => "unknown"
  | IdentType _ name => name
  | ArrayType elem => "[]" +:+ typeNodeToString elem
  | StructType _ => "struct"
  | OtherType => "unknown"
  end.

Definition fence (body : string) : string :=
  "```ayla" +:+ newline +:+ body +:+ newline +:+ "```".

Definition hoverFromSymbol (sym : Symbol.t) : string :=
  let typeStr := typeNodeToString (Symbol.Type_ sym) in
  match Symbol.Kind sym with
  | SymVar => fence ("egg " +:+ Symbol.Name sym +:+ " " +:+ typeStr)
  | SymConst => fence ("rock " +:+ Symbol.Name sym +:+ " " +:+ typeStr)
  | SymFunc => fence ("fun " +:+ Symbol.Name sym +:+ " (...)")
  | SymParam => fence ("param " +:+ Symbol.Name sym +:+ " " +:+ typeStr)
  | SymStructField => fence ("field " +:+ Symbol.Name sym +:+ " " +:+ typeStr)
  | SymType => fence ("type " +:+ Symbol.Name sym)
  | SymUserType => fence ("type " +:+ Symbol.Name sym +:+ " " +:+ typeStr)
  end.

(** ** Messages, diagnostics and the two queries ([server.go]) *)

Module Location.
Record t : Type := mk { URI : string; Range : Range.t }.
End Location.

Module Diagnostic.
Record t : Type := mk { Range : Range.t; Severity : Z; Message : string }.
End Diagnostic.

(** A structured parse error of the parser: the line, the column and the
    offending token are what [tokenRange] reads; [Detail] stands for
    whatever else the error carries for its rendering. *)
Module ParseError.
Record t : Type := mk { Line : Z; Column : Z; Token : Token.t; Detail : string }.
End ParseError.

(** An element of [p.Errors()]: a [*parser.ParseError] or another error. *)
Inductive error : Type :=
| ParseErr (pe : ParseError.t)
| OtherError (msg : string).

(** The [result] member of a response, before its JSON encoding. *)
Inductive ResultValue : Type :=
| Null
| HoverValue (kind value : string)
| LocationValue (loc : Location.t).

Module Response.
Record t : Type := mk { Jsonrpc : string; ID : Z; Result : ResultValue }.
End Response.

(** What the server writes to its output. *)
Inductive Message : Type :=
| ResponseMsg (r : Response.t)
| NotificationMsg (method uri : string) (diagnostics : list Diagnostic.t).

(** The decoded parameters of a hover or definition request. *)
Module QueryParams.
Record t : Type := mk { URI : string; Position : Position.t }.
End QueryParams.

Definition sendResponse (id : option Z) (r : ResultValue) : list Message :=
  match id with
  | None => []
  | Some i => [ResponseMsg (Response.mk "2.0" i r)]
  end.

Definition tokenRange (pe : ParseError.t) : Range.t :=
  let startCol := int_sub (ParseError.Column pe) 1 in
  let length := len (Token.Literal (ParseError.Token pe)) in
  let length := if length =? 0 then 1 else length in
  Range.mk (Position.mk (int_sub (ParseError.Line pe) 1) startCol)
           (Position.mk (int_sub (ParseError.Line pe) 1) (int_add startCol length)).

(** Modelled from the spec: [Identifier.Pos()] belongs to the parser
    package and is not part of the sources.  A symbol's declaration site
    is the (line, column) of the declaring identifier, and the column a
    token stores is the position after the token. *)
Definition Pos (n : Identifier.t) : Z * Z :=
  (Token.Line (NodeBase.Token (Identifier.NodeBase n)),
   Token.Column (NodeBase.Token (Identifier.NodeBase n))).

Definition isNilExpr (e : Expression) : bool :=
  match e with
  | NilExpr => true
  | _ => false
  end.

Definition setType (sym : Symbol.t) (t : TypeNode) : Symbol.t :=
  Symbol.mk (Symbol.Kind sym) (Symbol.Name sym) (Symbol.Ident sym) t
    (Symbol.Value sym) (Symbol.Parent sym).

Section Server.
(** The lexer and the parser are external: [ParseProgram] is the tree
    they produce for a text, [Errors] the errors the parser has
    collected for it, [ErrorText] the rendering of a parse error. *)
Variable ParseProgram : string -> list Statement.
Variable Errors : string -> list error.
Variable ErrorText : ParseError.t -> string.

(** The store of open documents; a missing entry reads as the empty string. *)
Variable documents : gmap string string.

Definition handleHover (id : option Z) (params : QueryParams.t)
  : result (list Message) :=
  let text := default EmptyString (documents !! QueryParams.URI params) in
  if String.eqb text EmptyString then Ok (sendResponse id Null)
  else
    let program := ParseProgram text in
    let '(h, built) := BuildSymbols program in
    rootScope ← built;
    ident ← findIdentAt program (QueryParams.Position params);
    match ident with
    | None => Ok (sendResponse id Null)
    | Some ident =>
        match Resolve h (Some rootScope) (Identifier.Value ident) with
        | None => Ok (sendResponse id Null)
        | Some sym =>
            let sym :=
              if isNil (Symbol.Type_ sym) && negb (isNilExpr (Symbol.Value sym))
              then
                let inferred := inferExprType h (Some rootScope) (Symbol.Value sym) in
                if negb (isNil inferred) then setType sym inferred else sym
              else sym in
            Ok (sendResponse id (HoverValue "markdown" (hoverFromSymbol sym)))
        end
    end.

Definition handleDefinition (id : option Z) (params : QueryParams.t)
  : result (list Message) :=
  let text := default EmptyString (documents !! QueryParams.URI params) in
  if String.eqb text EmptyString then Ok (sendResponse id Null)
  else
    let program := ParseProgram text in
    let '(h, built) := BuildSymbols program in
    rootScope ← built;
    ident ← findIdentAt program (QueryParams.Position params);
    match ident with
    | None => Ok (sendResponse id Null)
    | Some ident =>
        match Resolve h (Some rootScope) (Identifier.Value ident) with
        | None => Ok []
        | Some sym =>
            match Symbol.Ident sym with
            | None => Panic nil_deref
            | Some decl =>
                let '(line, col) := Pos decl in
                let line := int_sub line 1 in
                let col := int_sub col 1 in
                Ok (sendResponse id
                      (LocationValue
                         (Location.mk (QueryParams.URI params)
                            (Range.mk (Position.mk line col)
                               (Position.mk line
                                  (int_add col (len (Identifier.Value ident))))))))
            end
        end
    end.

Fixpoint collectDiagnostics (errs : list error) : list Diagnostic.t :=
  match errs with
  | [] => []
  | ParseErr pe :: rest =>
      Diagnostic.mk (tokenRange pe) 1 (ErrorText pe) :: collectDiagnostics rest
  | OtherError _ :: rest => collectDiagnostics rest
  end.

Definition publishDiagnostics (uri text : string) : list Message :=
  [NotificationMsg "textDocument/publishDiagnostics" uri
     (collectDiagnostics (Errors text))].
End Server.


(** ** The request loop's dispatch ([server.go]) *)

(** A request as [readMessage] decodes it; [Params] is the raw JSON of
    its parameters. *)
Module Request.
Record t : Type := mk { ID : option Z; Method : string; Params : string }.
End Request.

Module DidOpenParams.
Record t : Type := mk { URI : string; Text : string }.
End DidOpenParams.

Module DidChangeParams.
Record t : Type := mk { URI : string; ContentChanges : list string }.
End DidChangeParams.

(** The capabilities that the initialize result declares. *)
Module Capabilities.
Record t : Type :=
  mk { textDocumentSync : Z; definitionProvider : bool; hoverProvider : bool }.
End Capabilities.

(** What a handler writes: a message as above, or the response to
    [initialize], whose result is the capabilities. *)
Inductive Written : Type :=
| Plain (m : Message)
| InitializeResponse (jsonrpc : string) (id : Z) (capabilities : Capabilities.t).

(** What handling one message does: the loop goes on with a document
    store and what was written, the process exits, or a panic ends it. *)
Inductive outcome : Type :=
| Continue (documents : gmap string string) (written : list Written)
| Exit
| Crash (msg : string).

(** The message of an index expression out of range. *)
Definition index_out_of_range : string := "index out of range [0] with length 0".

Section Dispatch.
(** The parser, as for the queries, and the JSON decoding of the
    parameters of each request kind, whose errors the handlers ignore. *)
Variable ParseProgram : string -> list Statement.
Variable Errors : string -> list error.
Variable ErrorText : ParseError.t -> string.
Variable decodeDidOpen : string -> DidOpenParams.t.
Variable decodeDidChange : string -> DidChangeParams.t.
Variable decodeDefinition : string -> QueryParams.t.
Variable decodeHover : string -> QueryParams.t.

Variable documents : gmap string string.

Definition handleIntialize (req : Request.t) : list Written :=
  match Request.ID req with
  | None => []
  | Some i => [InitializeResponse "2.0" i (Capabilities.mk 1 true true)]
  end.

Definition handleDidOpen (req : Request.t) : outcome :=
  let params := decodeDidOpen (Request.Params req) in
  let uri := DidOpenParams.URI params in
  let text := DidOpenParams.Text params in
  Continue (<[uri := text]> documents)
    (Plain <$> publishDiagnostics Errors ErrorText uri text).

Definition handleDidChange (req : Request.t) : outcome :=
  let params := decodeDidChange (Request.Params req) in
  let uri := DidChangeParams.URI params in
  match DidChangeParams.ContentChanges params with
  | [] => Crash index_out_of_range
  | text :: _ =>
      Continue (<[uri := text]> documents)
        (Plain <$> publishDiagnostics Errors ErrorText uri text)
  end.

(** A handler that only answers: the store stays, a panic ends the loop. *)
Definition answer (r : result (list Message)) : outcome :=
  match r with
  | Ok written => Continue documents (Plain <$> written)
  | Panic msg => Crash msg
  end.

Definition handleMessage (req : Request.t) : outcome :=
  let method := Request.Method req in
  if String.eqb method "initialize" then Continue documents (handleIntialize req)
  else if String.eqb method "initialized" then Continue documents []
  else if String.eqb method "textDocument/didOpen" then handleDidOpen req
  else if String.eqb method "textDocument/didChange" then handleDidChange req
  else if String.eqb method "textDocument/definition" then
    answer (handleDefinition ParseProgram documents (Request.ID req)
              (decodeDefinition (Request.Params req)))
  else if String.eqb method "textDocument/hover" then
    answer (handleHover ParseProgram documents (Request.ID req)
              (decodeHover (Request.Params req)))
  else if String.eqb method "shutdown" then
    Continue documents (Plain <$> sendResponse (Request.ID req) Null)
  else if String.eqb method "exit" then Exit
  else Continue documents [].
End Dispatch.

(** * Notions used by the statements *)

(** A parent is allocated before its children. *)
Definition heap_wf (h : Heap) : Prop :=
  ∀ a sc p, h !! a = Some sc → Scope.Parent sc = Some p → (p < a)%nat.

(** The scopes met from [s] outward through the parent links. *)
Inductive scope_chain (h : Heap) : option nat → list Scope.t → Prop :=
| chain_end : scope_chain h None []
| chain_link a sc l :
    h !! a = Some sc →
    scope_chain h (Scope.Parent sc) l →
    scope_chain h (Some a) (sc :: l).

(** The first binding of [name] along a chain, innermost scope first. *)
Fixpoint first_binding (name : string) (l : list Scope.t) : option Symbol.t :=
  match l with
  | [] => None
  | sc :: l' =>
      match Scope.Symbols sc !! name with
      | Some sym => Some sym
      | None => first_binding name l'
      end
  end.

(** Two scopes for the shadowing example. *)
Definition demoOuter : Symbol.t :=
  Symbol.mk SymVar "x" None NilType (IntLiteral 1) None.
Definition demoInner : Symbol.t :=
  Symbol.mk SymVar "x" None NilType (StringLiteral "a") None.
Definition demoHeap : Heap :=
  [Scope.mk None {["x" := demoOuter]}; Scope.mk (Some 0%nat) {["x" := demoInner]}].

(** The statements directly below a statement. *)
Definition children (s : Statement) : list Statement :=
  match s with
  | FuncStatement _ _ body | SpawnStatement body | WhileStatement _ body => body
  | IfStatement _ conseq alt => conseq ++ default [] alt
  | ForStatement init _ post body => init :: post :: body
  | _ => []
  end.

(** The identifiers a statement declares in the scope it stands in; the
    declarations of its nested blocks and its parameters are not among
    them. *)
Definition declared (s : Statement) : list Identifier.t :=
  match s with
  | VarStatement (Some n) _ _ | VarStatementNoKeyword (Some n) _
  | ConstStatement (Some n) _ _ | FuncStatement (Some n) _ _
  | TypeStatement _ (Some n) _ => [n]
  | MultiVarStatement (Some names) _ _ | MultiVarStatementNoKeyword (Some names) _
  | MultiConstStatement (Some names) _ _ => names
  | _ => []
  end.

(** [sym], bound to [name], is the symbol of one of the declarations [ids]. *)
Definition declares (ids : list Identifier.t) (name : string) (sym : Symbol.t) : Prop :=
  ∃ id, id ∈ ids ∧ Symbol.Ident sym = Some id ∧ Symbol.Name sym = name
        ∧ Identifier.Value id = name.

(** What a build started in [scope] may do to the heap: allocate, and add
    to [scope] bindings of the declarations [ids]; older scopes and the
    bindings [scope] already has stay as they are. *)
Record grows (scope : nat) (ids : list Identifier.t) (h h' : Heap) : Prop := {
  grows_length : (length h ≤ length h')%nat;
  grows_frame : ∀ a, (a < length h)%nat → a ≠ scope → h' !! a = h !! a;
  grows_scope : ∀ sc, h !! scope = Some sc →
    ∃ sc', h' !! scope = Some sc'
           ∧ Scope.Parent sc' = Scope.Parent sc
           ∧ (∀ n sym, Scope.Symbols sc !! n = Some sym →
                       Scope.Symbols sc' !! n = Some sym)
           ∧ (∀ n sym, Scope.Symbols sc' !! n = Some sym →
                       Scope.Symbols sc !! n = Some sym ∨ declares ids n sym);
  grows_new : ∀ a sc, (length h ≤ a)%nat → h' !! a = Some sc →
    ∃ p, Scope.Parent sc = Some p ∧ (p < a)%nat
}.

(** The builder's effect on the heap, as a property of one statement. *)
Definition build_ok (s : Statement) : Prop :=
  ∀ scope h, (scope < length h)%nat →
             grows scope (declared s) h (buildStmt scope s h).1.

(** The root scope as [BuildSymbols] has it before it reads a statement. *)
Definition builtinScope : Scope.t :=
  Scope.mk None
    (<["arr" := builtinSymbol "arr"]>
       (<["bool" := builtinSymbol "bool"]>
          (<["string" := builtinSymbol "string"]>
             (<["float" := builtinSymbol "float"]>
                (<["int" := builtinSymbol "int"]> ∅))))).

(** The symbol a hover renders: the type slot filled in from the
    initializer when the declaration has no type. *)
Definition typedSymbol (h : Heap) (root : nat) (sym : Symbol.t) : Symbol.t :=
  if isNil (Symbol.Type_ sym) && negb (isNilExpr (Symbol.Value sym))
  then
    let inferred := inferExprType h (Some root) (Symbol.Value sym) in
    if negb (isNil inferred) then setType sym inferred else sym
  else sym.

(** The location a definition query answers with, for the declaring
    identifier [decl] and the identifier [ident] under the cursor. *)
Definition declLocation (uri : string) (decl ident : Identifier.t) : Location.t :=
  let line := int_sub (Pos decl).1 1 in
  let col := int_sub (Pos decl).2 1 in
  Location.mk uri
    (Range.mk (Position.mk line col)
       (Position.mk line (int_add col (len (Identifier.Value ident))))).

(** An identifier whose token ends before the one-based column [col]. *)
Definition mkIdent (name : string) (line col : Z) : Identifier.t :=
  Identifier.mk (NodeBase.mk (Token.mk name line col)) name.

Definition intType : TypeNode := IdentType zeroBase "int".

(** [fun f() { egg x int = 1 }] on line 1, [x] alone on line 2. *)
Definition nestedProgram : list Statement :=
  [FuncStatement (Some (mkIdent "f" 1 6)) []
     [VarStatement (Some (mkIdent "x" 1 16)) intType (IntLiteral 1)];
   ExpressionStatement (Ident (mkIdent "x" 2 2))].

(** [egg x string] on line 1, [fun f() { egg x int = 1  x }] on line 2:
    the use of [x] stands in the body of [f], below the inner [x]. *)
Definition shadowProgram : list Statement :=
  [VarStatement (Some (mkIdent "x" 1 6)) (IdentType zeroBase "string") NilExpr;
   FuncStatement (Some (mkIdent "f" 2 6)) []
     [VarStatement (Some (mkIdent "x" 2 16)) intType (IntLiteral 1);
      ExpressionStatement (Ident (mkIdent "x" 2 27))]].

Definition oneDocument (text : string) : gmap string string :=
  {["file:///a.ayla" := text]}.

Definition queryAt (line character : Z) : QueryParams.t :=
  QueryParams.mk "file:///a.ayla" (Position.mk line character).

(** [fun f() { egg x int; egg x int }] on line 1, [egg y int] on line 2,
    [y] alone on line 3: the body of [f] declares [x] twice. *)
Definition dupBody : list Statement :=
  [VarStatement (Some (mkIdent "x" 1 16)) intType NilExpr;
   VarStatement (Some (mkIdent "x" 1 27)) intType NilExpr].

Definition dupProgram : list Statement :=
  [FuncStatement (Some (mkIdent "f" 1 6)) [] dupBody;
   VarStatement (Some (mkIdent "y" 2 6)) intType NilExpr;
   ExpressionStatement (Ident (mkIdent "y" 3 2))].

(** [egg x int] on line 1 and again on line 2, then [egg z int]. *)
Definition dupTop : list Statement :=
  [VarStatement (Some (mkIdent "x" 1 6)) intType NilExpr;
   VarStatement (Some (mkIdent "x" 2 6)) intType NilExpr;
   VarStatement (Some (mkIdent "z" 3 6)) intType NilExpr].

(** Structural equality of types, as the specification words it: two
    identifier types are equal when their names match, two array types
    when their element types are equal. *)
Inductive structEq : TypeNode → TypeNode → Prop :=
| structEq_ident b1 b2 name : structEq (IdentType b1 name) (IdentType b2 name)
| structEq_array e1 e2 : structEq e1 e2 → structEq (ArrayType e1) (ArrayType e2).

(** The type is the identifier type [name], the integer type for ["int"]
    and the floating-point type for ["float"]. *)
Definition named (name : string) (t : TypeNode) : Prop := ∃ b, t = IdentType b name.

Definition unknown : TypeNode := NilType.

(** The structured parse errors among the errors of the parser. *)
Definition structuredErrors (errs : list error) : list ParseError.t :=
  omap (λ e, match e with ParseErr pe => Some pe | OtherError _ => None end) errs.

(** Severity 1 is "error". *)
Definition severityError : Z := 1.

(** [egg a int], [egg count int], [count] on lines 1 to 3: the declaring
    [count] occupies the zero-based columns 4 to 8 of its line; the
    column its token stores is the one-based column after it, 10. *)
Definition countDecl : Identifier.t := mkIdent "count" 2 10.

Definition countProgram : list Statement :=
  [VarStatement (Some (mkIdent "a" 1 6)) intType NilExpr;
   VarStatement (Some countDecl) intType NilExpr;
   ExpressionStatement (Ident (mkIdent "count" 3 6))].

(** [x] alone on line 1, never declared. *)
Definition undeclaredProgram : list Statement :=
  [ExpressionStatement (Ident (mkIdent "x" 1 2))].

(** [type T int] on line 1, [egg x int] on line 2. *)
Definition typeBase : NodeBase.t := NodeBase.mk (Token.mk "type" 1 5).

Definition typeThenVar : list Statement :=
  [TypeStatement typeBase (Some (mkIdent "T" 1 7)) intType;
   VarStatement (Some (mkIdent "x" 2 6)) intType NilExpr].

(** A declaration of [x] without keyword on line 1, with the initializer
    [5]; on line 2 a declaration of [ys] whose initializer is the array
    literal [[x]]. *)
Definition shortDecl : list Statement :=
  [VarStatementNoKeyword (Some (mkIdent "x" 1 2)) (IntLiteral 5);
   VarStatement (Some (mkIdent "ys" 2 7)) NilType
     (ArrayLiteral [Ident (mkIdent "x" 2 12)])].

(** The expressions directly below an expression. *)
Definition exprChildren (e : Expression) : list Expression :=
  match e with
  | ArrayLiteral elements => elements
  | StructLiteral _ fields => fields
  | InfixExpression l _ r => [l; r]
  | PrefixExpression _ r => [r]
  | IndexExpression l i => [l; i]
  | MemberExpression l _ => [l]
  | FuncCall _ args => args
  | _ => []
  end.

(** No type statement in the statement or below it. *)
Fixpoint typeFree (s : Statement) : bool :=
  match s with
  | TypeStatement _ _ _ => false
  | FuncStatement _ _ body | SpawnStatement body | WhileStatement _ body =>
      forallb typeFree body
  | IfStatement _ conseq alt =>
      forallb typeFree conseq
      && match alt with
         | Some stmts => forallb typeFree stmts
         | None => true
         end
  | ForStatement init _ post body =>
      typeFree init && typeFree post && forallb typeFree body
  | _ => true
  end.

(** The position lies in the span of the identifier's token. *)
Definition inside (pos : Position.t) (n : Identifier.t) : Prop :=
  posInsideTok (NodeBase.Token (Identifier.NodeBase n)) pos = true.

(** * Notions used by the further properties *)

(** The statement has what the builder reads of it without a test: its
    name pointer or name slice is not nil, the parameters of a function
    have different names, the type of a type statement is one the
    builder can name. *)
Definition buildable (s : Statement) : Prop :=
  match s with
  | VarStatement n _ _ | VarStatementNoKeyword n _ | ConstStatement n _ _ => is_Some n
  | MultiVarStatement ns _ _ | MultiVarStatementNoKeyword ns _
  | MultiConstStatement ns _ _ => is_Some ns
  | FuncStatement n ps _ =>
      is_Some n ∧ NoDup ((λ p, Identifier.Value (Param.Name p)) <$> ps)
  | TypeStatement _ n t => is_Some n ∧ ∃ name, buildTypeName t = Ok name
  | _ => True
  end.

(** [sc] binds the name of [id] to [sym], the symbol of [id]. *)
Definition bindsTo (sc : Scope.t) (id : Identifier.t) (sym : Symbol.t) : Prop :=
  Scope.Symbols sc !! Identifier.Value id = Some sym
  ∧ Symbol.Ident sym = Some id ∧ Symbol.Name sym = Identifier.Value id.

Definition binds (sc : Scope.t) (id : Identifier.t) : Prop :=
  ∃ sym, bindsTo sc id sym.

(** The symbol that the builder makes for the identifier [id] that the
    statement [s] declares: its kind, its type and its initializer. *)
Definition recorded (s : Statement) (id : Identifier.t) (sym : Symbol.t) : Prop :=
  match s with
  | VarStatement _ ty v | MultiVarStatement _ ty v =>
      sym = Symbol.mk SymVar (Identifier.Value id) (Some id) ty v None
  | VarStatementNoKeyword _ v | MultiVarStatementNoKeyword _ v =>
      sym = Symbol.mk SymVar (Identifier.Value id) (Some id) NilType v None
  | ConstStatement _ ty v | MultiConstStatement _ ty v =>
      sym = Symbol.mk SymConst (Identifier.Value id) (Some id) ty v None
  | FuncStatement _ _ _ =>
      sym = Symbol.mk SymFunc (Identifier.Value id) (Some id) NilType NilExpr None
  | TypeStatement base _ t =>
      ∃ typeName,
        buildTypeName t = Ok typeName
        ∧ sym = Symbol.mk SymUserType (Identifier.Value id) (Some id)
                  (IdentType base typeName) NilExpr None
  | _ => False
  end.


(** The position of the [k]-th byte of a token. *)
Definition byteOf (tok : Token.t) (k : Z) : Position.t :=
  Position.mk (Token.Line tok - 1)
    (Token.Column tok - 1 - len (Token.Literal tok) + k).

(** A type made of identifier types and array types only. *)
Fixpoint plainType (t : TypeNode) : bool :=
  match t with
  | IdentType _ _ => true
  | ArrayType elem => plainType elem
  | _ => false
  end.

(** The request that a written message answers, when it is a response. *)
Definition responseId (w : Written) : option Z :=
  match w with
  | Plain (ResponseMsg r) => Some (Response.ID r)
  | Plain (NotificationMsg _ _ _) => None
  | InitializeResponse _ i _ => Some i
  end.

(** The notification that a diagnostics pass writes. *)
Definition diagnosticsFor (Errors : string → list error)
  (ErrorText : ParseError.t → string) (uri text : string) : Written :=
  Plain (NotificationMsg "textDocument/publishDiagnostics" uri
           (collectDiagnostics ErrorText (Errors text))).

(** The type a hover shows for a symbol: the declared one, and without a
    declared one the type inferred from the initializer. *)
Definition shownType (h : Heap) (root : nat) (sym : Symbol.t) : TypeNode :=
  if isNil (Symbol.Type_ sym)
  then inferExprType h (Some root) (Symbol.Value sym)
  else Symbol.Type_ sym.

(** [egg n = 1] on line 1 and a use of [n] on line 2: a declaration
    without a type. *)
Definition inferredProgram : list Statement :=
  [VarStatement (Some (mkIdent "n" 1 6)) NilType (IntLiteral 1);
   ExpressionStatement (Ident (mkIdent "n" 2 2))].

(** * Properties *)

(** ** Go integers *)

Lemma wrap_small (z : Z) : in_int z -> wrap z = z.
Proof.
  unfold in_int, int_min, int_max, wrap. intros Hz.
  rewrite Z.mod_small; lia.
Qed.

Lemma len_nonneg (s : string) : 0 <= len s.
Proof. unfold len. lia. Qed.

(** ** Scope chains *)


Lemma scope_chain_length h s l :
  heap_wf h → scope_chain h s l →
  ∀ a, s = Some a → (length l ≤ S a)%nat.
Proof.
  intros Hwf Hc. induction Hc as [|a sc l Ha Hc IH]; intros b Hb; [done|].
  injection Hb as <-. simpl.
  destruct (Scope.Parent sc) as [p|] eqn:Hp.
  - specialize (IH p eq_refl). pose proof (Hwf a sc p Ha Hp). lia.
  - inversion Hc; subst. simpl. lia.
Qed.

Lemma ResolveFrom_chain h name s l :
  scope_chain h s l →
  ∀ fuel, (length l ≤ fuel)%nat → ResolveFrom fuel h s name = first_binding name l.
Proof.
  induction 1 as [|a sc l Ha Hc IH]; intros fuel Hfuel.
  - by destruct fuel.
  - destruct fuel as [|fuel]; simpl in *; [lia|].
    rewrite Ha. destruct (Scope.Symbols sc !! name); [done|].
    apply IH. lia.
Qed.

Lemma scope_chain_exists h :
  heap_wf h → ∀ a, (a < length h)%nat → ∃ l, scope_chain h (Some a) l.
Proof.
  intros Hwf a. induction (lt_wf a) as [a _ IH]. intros Ha.
  destruct (lookup_lt_is_Some_2 h a Ha) as [sc Hsc].
  destruct (Scope.Parent sc) as [p|] eqn:Hp.
  - pose proof (Hwf a sc p Hsc Hp) as Hlt.
    destruct (IH p Hlt) as [l Hl]; [lia|].
    exists (sc :: l). econstructor; [done|]. by rewrite Hp.
  - exists [sc]. econstructor; [done|]. rewrite Hp. constructor.
Qed.

Lemma Resolve_chain h s l name :
  heap_wf h → scope_chain h s l → Resolve h s name = first_binding name l.
Proof.
  intros Hwf Hc. unfold Resolve. apply ResolveFrom_chain; [done|].
  destruct s as [a|].
  - pose proof (scope_chain_length h _ l Hwf Hc a eq_refl).
    inversion Hc; subst.
    assert (a < length h)%nat by (eapply lookup_lt_Some; eauto). lia.
  - inversion Hc. simpl. lia.
Qed.

(** Resolution from a scope reads the scopes of its chain only, and
    these have smaller addresses: a heap that agrees up to [a] resolves
    alike from [a]. *)
Lemma scope_chain_agree h h' s l :
  heap_wf h → scope_chain h s l →
  (∀ a b, s = Some a → (b ≤ a)%nat → h' !! b = h !! b) →
  scope_chain h' s l.
Proof.
  intros Hwf Hc. induction Hc as [|a sc l Ha Hc IH]; intros Hag; [constructor|].
  econstructor.
  - rewrite (Hag a a eq_refl); [done|lia].
  - apply IH. intros p b Hp Hb. apply (Hag a b eq_refl).
    pose proof (Hwf a sc p Ha Hp). lia.
Qed.

Lemma Resolve_agree h h' a name :
  heap_wf h → (a < length h)%nat → (length h ≤ length h')%nat →
  (∀ b, (b ≤ a)%nat → h' !! b = h !! b) →
  Resolve h' (Some a) name = Resolve h (Some a) name.
Proof.
  intros Hwf Ha Hlen Hag.
  destruct (scope_chain_exists h Hwf a Ha) as [l Hl].
  pose proof (scope_chain_length h _ l Hwf Hl a eq_refl) as Hll.
  assert (scope_chain h' (Some a) l) as Hl'.
  { apply (scope_chain_agree h); [done..|]. intros ? b [= <-]. apply Hag. }
  unfold Resolve.
  rewrite (ResolveFrom_chain h' name _ l Hl') by lia.
  rewrite (ResolveFrom_chain h name _ l Hl) by lia. done.
Qed.

Lemma first_binding_None name l :
  first_binding name l = None ↔ Forall (λ sc, Scope.Symbols sc !! name = None) l.
Proof.
  induction l as [|sc l IH]; simpl.
  - split; [constructor|done].
  - destruct (Scope.Symbols sc !! name) eqn:E.
    + split; [done|]. intros HF. inversion HF; congruence.
    + rewrite IH. split; [by constructor|]. by inversion 1.
Qed.

(** C6: over a heap whose parents are older than their children,
    [Resolve] from a scope returns the first binding of the name along
    the chain of parent links, innermost first, and nil when no scope of
    the chain binds it; every scope has such a chain.  A name bound in an
    inner and in an outer scope resolves to the inner symbol from the
    inner scope and to the outer one from the outer scope, and whatever a
    child binds, resolution from its parent is unchanged. *)
Theorem Resolve_innermost (h : Heap) (Hwf : heap_wf h) :
  (∀ s l name, scope_chain h s l → Resolve h s name = first_binding name l)
  ∧ (∀ s l name, scope_chain h s l →
       (Resolve h s name = None ↔ Forall (λ sc, Scope.Symbols sc !! name = None) l))
  ∧ (∀ a, (a < length h)%nat → ∃ l, scope_chain h (Some a) l)
  ∧ (∀ inner outer sci sco name symI symO,
       h !! inner = Some sci → Scope.Parent sci = Some outer →
       h !! outer = Some sco →
       Scope.Symbols sci !! name = Some symI →
       Scope.Symbols sco !! name = Some symO →
       Resolve h (Some inner) name = Some symI
       ∧ Resolve h (Some outer) name = Some symO)
  ∧ (∀ child parent sc symbols name,
       h !! child = Some sc → Scope.Parent sc = Some parent →
       Resolve (<[child := Scope.mk (Scope.Parent sc) symbols]> h) (Some parent) name
       = Resolve h (Some parent) name).
Proof.
  split_and!.
  - intros s l name Hc. by apply Resolve_chain.
  - intros s l name Hc. rewrite (Resolve_chain h s l name Hwf Hc).
    apply first_binding_None.
  - by apply scope_chain_exists.
  - intros inner outer sci sco name symI symO Hi Hp Ho HsI HsO.
    assert (outer < length h)%nat as Hlo by (eapply lookup_lt_Some; eauto).
    destruct (scope_chain_exists h Hwf outer Hlo) as [lo Hlo'].
    assert (scope_chain h (Some inner) (sci :: lo)) as Hli.
    { econstructor; [done|]. by rewrite Hp. }
    rewrite (Resolve_chain h _ _ name Hwf Hli).
    rewrite (Resolve_chain h _ _ name Hwf Hlo').
    inversion Hlo'; simplify_eq. simpl. by rewrite HsI, HsO.
  - intros child parent sc symbols name Hc Hp.
    pose proof (Hwf child sc parent Hc Hp) as Hlt.
    assert (child < length h)%nat as Hlc by (eapply lookup_lt_Some; eauto).
    apply Resolve_agree; [done|lia|by rewrite length_insert|].
    intros b Hb. apply list_lookup_insert_ne. lia.
Qed.


Lemma Resolve_innermost_witness :
  heap_wf demoHeap
  ∧ Resolve demoHeap (Some 1%nat) "x" = Some demoInner
  ∧ Resolve demoHeap (Some 0%nat) "x" = Some demoOuter.
Proof.
  assert (heap_wf demoHeap) as Hwf.
  { intros a sc p Ha Hp.
    destruct a as [|[|a]]; simpl in Ha; simplify_eq; simpl in Hp; simplify_eq.
    lia. }
  split; [exact Hwf|].
  destruct (Resolve_innermost demoHeap Hwf) as (_ & _ & _ & Hshadow & _).
  apply (Hshadow 1%nat 0%nat (Scope.mk (Some 0%nat) {["x" := demoInner]})
           (Scope.mk None {["x" := demoOuter]}) "x" demoInner demoOuter);
    reflexivity.
Defined.

(** ** Induction over nested statements *)

Lemma Statement_nested_ind (P : Statement → Prop) :
  (∀ s, Forall P (children s) → P s) → ∀ s, P s.
Proof.
  intros step. fix IH 1. intros s. apply step.
  destruct s as [ | | | | | | | | | | | ? ? body | body | | ? conseq alt
                | init ? post body | ? body | ]; simpl; try constructor.
  - induction body; constructor; [apply IH | assumption].
  - induction body; constructor; [apply IH | assumption].
  - apply Forall_app. split.
    + induction conseq; constructor; [apply IH | assumption].
    + destruct alt as [l|]; simpl; [|constructor].
      induction l; constructor; [apply IH | assumption].
  - apply IH.
  - constructor; [apply IH|].
    induction body; constructor; [apply IH | assumption].
  - induction body; constructor; [apply IH | assumption].
Qed.

(** ** The heap during a build *)

Lemma grows_refl scope ids h : grows scope ids h h.
Proof.
  split; [lia|done| |intros a sc Ha Hs; apply lookup_lt_Some in Hs; lia].
  intros sc Hsc. exists sc. split_and!; auto.
Qed.

Lemma declares_mono ids ids' n sym :
  ids ⊆ ids' → declares ids n sym → declares ids' n sym.
Proof. intros Hsub (id & Hin & H). exists id. split; [by apply Hsub|done]. Qed.

Lemma grows_mono scope ids ids' h h' :
  ids ⊆ ids' → grows scope ids h h' → grows scope ids' h h'.
Proof.
  intros Hsub [Hl Hf Hs Hn]. split; [done..| |done].
  intros sc Hsc. destruct (Hs sc Hsc) as (sc' & H1 & H2 & H3 & H4).
  exists sc'. split_and!; [done..|].
  intros n sym Hns. destruct (H4 n sym Hns); [by left|right].
  by eapply declares_mono.
Qed.

Lemma grows_trans scope ids1 ids2 h1 h2 h3 :
  (scope < length h1)%nat →
  grows scope ids1 h1 h2 → grows scope ids2 h2 h3 →
  grows scope (ids1 ++ ids2) h1 h3.
Proof.
  intros Hsc [Hl Hf Hs Hn] [Hl' Hf' Hs' Hn']. split.
  - lia.
  - intros a Ha Hne. rewrite Hf' by (done || lia). by apply Hf.
  - intros sc Hlook. destruct (Hs sc Hlook) as (sc' & H1 & H2 & H3 & H4).
    destruct (Hs' sc' H1) as (sc'' & H1' & H2' & H3' & H4').
    exists sc''. split_and!; [done|congruence|auto|].
    intros n sym Hns. destruct (H4' n sym Hns) as [Hold|Hnew].
    + destruct (H4 n sym Hold) as [?|Hd]; [by left|right].
      eapply declares_mono; [|done]. by apply list_subseteq_app_l.
    + right. eapply declares_mono; [|done]. by apply list_subseteq_app_r.
  - intros a sc Ha Hlook.
    destruct (decide (a < length h2)%nat) as [Hlt|Hge].
    + rewrite Hf' in Hlook by (done || lia). by eapply Hn.
    + eapply Hn'; [lia|done].
Qed.

(** A block built in a fresh child scope leaves the scopes allocated
    before it as they were. *)
Lemma grows_child c scope ids h h' :
  (scope < length h)%nat →
  grows (length h) ids (h ++ [Scope.mk (Some scope) ∅]) h' →
  grows c [] h h'.
Proof.
  intros Hsc [Hl Hf Hs Hn]. rewrite length_app in Hl, Hf, Hn. simpl in *.
  assert (∀ a, (a < length h)%nat → h' !! a = h !! a) as Hold.
  { intros a Ha. rewrite Hf by lia. by apply lookup_app_l. }
  split.
  - lia.
  - intros a Ha _. by apply Hold.
  - intros sc Hlook. exists sc.
    rewrite Hold by (by eapply lookup_lt_Some). split_and!; auto.
  - intros a sc Ha Hlook.
    destruct (decide (a = length h)) as [->|Hne].
    + destruct (Hs (Scope.mk (Some scope) ∅)) as (sc' & H1 & H2 & _).
      { rewrite lookup_app_r by lia. by rewrite Nat.sub_diag. }
      simplify_eq. exists scope. done.
    + eapply Hn; [|done]. lia.
Qed.

Lemma Define_grows scope sym id h :
  Symbol.Ident sym = Some id → Symbol.Name sym = Identifier.Value id →
  grows scope [id] h (Define scope sym h).1.
Proof.
  intros Hid Hname. unfold Define.
  destruct (h !! scope) as [sc|] eqn:Hsc; [|apply grows_refl].
  destruct (Scope.Symbols sc !! Symbol.Name sym) eqn:Hfree; [apply grows_refl|].
  simpl. assert (scope < length h)%nat by (by eapply lookup_lt_Some).
  split.
  - by rewrite length_insert.
  - intros a _ Hne. by apply list_lookup_insert_ne.
  - intros sc0 Hsc0. simplify_eq. eexists. split; [by apply list_lookup_insert_eq|].
    simpl. split_and!; [done| |].
    + intros n s Hn. rewrite lookup_insert_ne; [done|congruence].
    + intros n s. rewrite lookup_insert. case_decide as Heq.
      * intros [= <-]. right. exists id.
        split_and!; [apply list_elem_of_here|done|done|congruence].
      * by left.
  - intros a sc0 Ha Hlook. apply lookup_lt_Some in Hlook.
    rewrite length_insert in Hlook. lia.
Qed.

Lemma range_Define_grows {A} scope (mk : A → Symbol.t) (key : A → Identifier.t) l h :
  (scope < length h)%nat →
  (∀ x, Symbol.Ident (mk x) = Some (key x)
        ∧ Symbol.Name (mk x) = Identifier.Value (key x)) →
  grows scope (key <$> l) h (range (λ x, Define scope (mk x)) l h).1.
Proof.
  intros Hsc Hmk. revert h Hsc. induction l as [|x l IH]; intros h Hsc.
  - apply grows_refl.
  - simpl. unfold bind.
    pose proof (Define_grows scope (mk x) (key x) h (proj1 (Hmk x)) (proj2 (Hmk x)))
      as Hd.
    destruct (Define scope (mk x) h) as [h1 [[]|msg]] eqn:E; simpl in *.
    + apply (grows_trans scope [key x] (key <$> l) h h1); [done|done|].
      apply IH. pose proof (grows_length _ _ _ _ Hd). lia.
    + eapply grows_mono; [|done].
      apply (list_subseteq_app_l [key x] [key x] (key <$> l)). done.
Qed.

Lemma bind_grows {A B} scope ids1 ids2 (m : M A) (k : A → M B) h :
  (scope < length h)%nat →
  grows scope ids1 h (m h).1 →
  (∀ a h1, m h = (h1, Ok a) → grows scope ids2 h1 (k a h1).1) →
  grows scope (ids1 ++ ids2) h (bind m k h).1.
Proof.
  intros Hsc Hm Hk. unfold bind.
  destruct (m h) as [h1 [a|msg]] eqn:E; simpl in *.
  - eapply grows_trans; [done|done|]. by apply Hk.
  - eapply grows_mono; [|done]. by apply list_subseteq_app_l.
Qed.

Lemma recover_fst (m : M unit) h : (recover m h).1 = (m h).1.
Proof. done. Qed.

Lemma recover_snd (m : M unit) h : (recover m h).2 = Ok tt.
Proof. done. Qed.

(** The code of a nested block: a fresh child scope, and a build in it. *)
Lemma block_grows {B} c scope ids (k : nat → M B) h :
  (scope < length h)%nat →
  grows (length h) ids (h ++ [Scope.mk (Some scope) ∅])
        (k (length h) (h ++ [Scope.mk (Some scope) ∅])).1 →
  grows c [] h (bind (NewScope (Some scope)) k h).1.
Proof. intros Hsc Hk. unfold bind, NewScope. by eapply grows_child. Qed.

Lemma range_build_grows scope stmts h :
  Forall build_ok stmts → (scope < length h)%nat →
  grows scope (stmts ≫= declared) h (range (buildStmt scope) stmts h).1.
Proof.
  intros Hall. revert h. induction Hall as [|s stmts Hs Hall IH]; intros h Hsc.
  - apply grows_refl.
  - rewrite bind_cons.
    apply (bind_grows scope (declared s) (stmts ≫= declared) (buildStmt scope s)
             (λ _, range (buildStmt scope) stmts)); [done|by apply Hs|].
    intros [] h1 E. apply IH.
    pose proof (grows_length _ _ _ _ (Hs scope h Hsc)) as Hl.
    rewrite E in Hl. simpl in Hl. lia.
Qed.

Lemma buildInScope_fst scope stmts h :
  (buildInScope scope stmts h).1 = (range (buildStmt scope) stmts h).1.
Proof. done. Qed.

Lemma for_init_eq scope init :
  match init with
  | NilStmt => ret tt
  | _ => recover (buildStmt scope init ;;; ret tt)
  end = buildInScope scope [init].
Proof. by destruct init. Qed.

Lemma length_snoc_lt {A} (h : list A) x : (length h < length (h ++ [x]))%nat.
Proof. rewrite length_app. simpl. lia. Qed.

Lemma Define_length scope sym h : length (Define scope sym h).1 = length h.
Proof.
  unfold Define. destruct (h !! scope) as [sc|]; [|done].
  destruct (Scope.Symbols sc !! Symbol.Name sym); [done|].
  simpl. by rewrite length_insert.
Qed.

Lemma range_Define_length {A} scope (mk : A → Symbol.t) l h :
  length (range (λ x, Define scope (mk x)) l h).1 = length h.
Proof.
  revert h. induction l as [|x l IH]; intros h; [done|].
  simpl. unfold bind. pose proof (Define_length scope (mk x) h) as Hd.
  destruct (Define scope (mk x) h) as [h1 [[]|msg]]; simpl in *; [|done].
  by rewrite IH.
Qed.

Lemma buildStmt_grows : ∀ s, build_ok s.
Proof.
  apply Statement_nested_ind. intros s IH scope h Hsc.
  destruct s as [ | | name ? ? | name ? | name ? ? | names ? ? | names ?
                | names ? ? | | | | name params body | | ? name ty
                | ? conseq alt | init ? post body | ? body | ];
    simpl in IH |- *; try apply grows_refl.
  - destruct name; [by apply Define_grows | apply grows_refl].
  - destruct name; [by apply Define_grows | apply grows_refl].
  - destruct name; [by apply Define_grows | apply grows_refl].
  - destruct names as [l|]; [|apply grows_refl].
    rewrite <- (list_fmap_id l) at 1. by apply range_Define_grows.
  - destruct names as [l|]; [|apply grows_refl].
    rewrite <- (list_fmap_id l) at 1. by apply range_Define_grows.
  - destruct names as [l|]; [|apply grows_refl].
    rewrite <- (list_fmap_id l) at 1. by apply range_Define_grows.
  - destruct name as [n|]; [|apply grows_refl].
    apply (bind_grows scope [n] []); [done|by apply Define_grows|].
    intros [] h1 E.
    assert (scope < length h1)%nat as Hsc1.
    { pose proof (Define_length scope
                    (Symbol.mk SymFunc (Identifier.Value n) (Some n) NilType NilExpr None)
                    h) as Hl.
      rewrite E in Hl. simpl in Hl. lia. }
    eapply block_grows; [done|].
    apply bind_grows; [apply length_snoc_lt| |].
    + apply (range_Define_grows (length h1) _ Param.Name); [apply length_snoc_lt|done].
    + intros [] h2 E2. rewrite recover_fst.
      apply range_build_grows; [done|].
      pose proof (range_Define_length (length h1)
                    (λ p, Symbol.mk SymParam (Identifier.Value (Param.Name p))
                            (Some (Param.Name p)) (Param.Type_ p) NilExpr None)
                    params (h1 ++ [Scope.mk (Some scope) ∅])) as Hl.
      assert (length h2 = length (h1 ++ [Scope.mk (Some scope) ∅])) as Hl2.
      { change h2 with (h2, @Ok unit ()).1. rewrite <- E2. apply Hl. }
      pose proof (length_snoc_lt h1 (Scope.mk (Some scope) ∅)). lia.
  - destruct name as [n|]; [|apply grows_refl].
    unfold bind, lift. destruct (buildTypeName ty); [|apply grows_refl].
    by apply Define_grows.
  - apply Forall_app in IH as [IHc IHa].
    eapply block_grows; [done|].
    apply (bind_grows (length h) (conseq ≫= declared) []); [apply length_snoc_lt| |].
    + rewrite recover_fst. apply range_build_grows; [done|apply length_snoc_lt].
    + intros [] h1 E. destruct alt as [l|]; [|apply grows_refl].
      assert (length (h ++ [Scope.mk (Some scope) ∅]) ≤ length h1)%nat as Hl1.
      { change h1 with (h1, @Ok unit ()).1. rewrite <- E, recover_fst.
        eapply grows_length.
        apply (range_build_grows (length h)); [done|apply length_snoc_lt]. }
      pose proof (length_snoc_lt h (Scope.mk (Some scope) ∅)).
      eapply block_grows; [lia|]. rewrite recover_fst.
      apply range_build_grows; [done|apply length_snoc_lt].
  - inversion IH as [|? ? IHinit IH']; subst.
    inversion IH' as [|? ? IHpost IHbody]; subst.
    eapply block_grows; [done|].
    rewrite for_init_eq.
    apply bind_grows; [apply length_snoc_lt| |].
    + rewrite buildInScope_fst. apply range_build_grows; [|apply length_snoc_lt].
      by constructor.
    + intros [] h2 E2. rewrite recover_fst. apply range_build_grows; [done|].
      assert (grows (length h) ([init] ≫= declared)
                (h ++ [Scope.mk (Some scope) ∅])
                (buildInScope (length h) [init]
                   (h ++ [Scope.mk (Some scope) ∅])).1) as Hg.
      { rewrite buildInScope_fst. apply range_build_grows; [|apply length_snoc_lt].
        by constructor. }
      apply grows_length in Hg. rewrite E2 in Hg. simpl in Hg.
      pose proof (length_snoc_lt h (Scope.mk (Some scope) ∅)). lia.
  - eapply (grows_child scope scope); [done|].
    apply range_build_grows; [done|apply length_snoc_lt].
Qed.

Lemma buildInScope_grows scope stmts h :
  (scope < length h)%nat →
  grows scope (stmts ≫= declared) h (buildInScope scope stmts h).1.
Proof.
  intros Hsc. rewrite buildInScope_fst. apply range_build_grows; [|done].
  apply Forall_forall. intros s _. apply buildStmt_grows.
Qed.

(** ** The root scope *)

Lemma BuildSymbols_eq stmts :
  BuildSymbols stmts = ((buildInScope 0 stmts [builtinScope]).1, Ok 0%nat).
Proof. reflexivity. Qed.

Lemma builtinScope_lookup t :
  t ∈ builtinTypes → Scope.Symbols builtinScope !! t = Some (builtinSymbol t).
Proof.
  unfold builtinTypes. rewrite !elem_of_cons, elem_of_nil.
  intros [->|[->|[->|[->|[->|[]]]]]]; reflexivity.
Qed.

Lemma builtinScope_only t sym :
  Scope.Symbols builtinScope !! t = Some sym →
  t ∈ builtinTypes ∧ sym = builtinSymbol t.
Proof.
  unfold builtinScope, builtinTypes. simpl.
  rewrite !lookup_insert. repeat case_decide; subst;
    rewrite ?lookup_empty; intros [= <-]; split; try done;
    rewrite !elem_of_cons; tauto.
Qed.

Lemma grows_wf scope ids h h' :
  heap_wf h → grows scope ids h h' → heap_wf h'.
Proof.
  intros Hwf [Hl Hf Hs Hn] a sc p Ha Hp.
  destruct (decide (a < length h)%nat) as [Hlt|Hge].
  - destruct (decide (a = scope)) as [->|Hne].
    + destruct (lookup_lt_is_Some_2 h scope Hlt) as [sc0 Hsc0].
      destruct (Hs sc0 Hsc0) as (sc' & H1 & H2 & _). simplify_eq.
      apply (Hwf scope sc0 p Hsc0). congruence.
    + rewrite Hf in Ha by done. by apply (Hwf a sc p).
  - destruct (Hn a sc) as (p' & Hp' & Hlt); [lia|done|]. congruence.
Qed.

Lemma Resolve_root h sc name :
  h !! 0%nat = Some sc → Scope.Parent sc = None →
  Resolve h (Some 0%nat) name = Scope.Symbols sc !! name.
Proof.
  intros Hsc Hp. unfold Resolve. destruct h as [|sc0 h]; [done|].
  simpl in *. simplify_eq. rewrite Hp.
  destruct (Scope.Symbols sc !! name); [done|]. by destruct (length h).
Qed.

(** The root that [BuildSymbols] returns: it has no parent, it keeps the
    built-in bindings, and whatever else it binds is a declaration of
    the statement sequence itself. *)
Lemma BuildSymbols_root stmts :
  ∃ h sc,
    BuildSymbols stmts = (h, Ok 0%nat) ∧ heap_wf h ∧ h !! 0%nat = Some sc
    ∧ Scope.Parent sc = None
    ∧ (∀ t, t ∈ builtinTypes → Scope.Symbols sc !! t = Some (builtinSymbol t))
    ∧ (∀ n sym, Scope.Symbols sc !! n = Some sym →
                (n ∈ builtinTypes ∧ sym = builtinSymbol n)
                ∨ declares (stmts ≫= declared) n sym).
Proof.
  pose proof (buildInScope_grows 0 stmts [builtinScope]) as Hg.
  specialize (Hg ltac:(simpl; lia)).
  destruct (grows_scope _ _ _ _ Hg builtinScope eq_refl) as (sc & H1 & H2 & H3 & H4).
  exists (buildInScope 0 stmts [builtinScope]).1, sc.
  split_and!; [apply BuildSymbols_eq| |done|done| |].
  - eapply grows_wf; [|done]. intros [|a] s p Ha Hp; simpl in Ha; simplify_eq.
  - intros t Ht. by apply H3, builtinScope_lookup.
  - intros n sym Hn. destruct (H4 n sym Hn) as [Hb|Hd]; [left|by right].
    by apply builtinScope_only.
Qed.

(** C10: whatever the statements, [BuildSymbols] returns a root scope
    that was given a type-kind symbol for each of [int], [float],
    [string], [bool] and [arr] before the first statement was read, and
    that still binds each of these names to that symbol at the end: a
    [Define] of such a name in the root panics and changes nothing. *)
Theorem builtins_in_root (stmts : list Statement) :
  ∃ h sc,
    BuildSymbols stmts = (h, Ok 0%nat) ∧ h !! 0%nat = Some sc
    ∧ h = (buildInScope 0 stmts [builtinScope]).1
    ∧ builtinTypes = ["int"; "float"; "string"; "bool"; "arr"]
    ∧ (∀ t, t ∈ builtinTypes →
         Scope.Symbols builtinScope !! t = Some (builtinSymbol t)
         ∧ Scope.Symbols sc !! t = Some (builtinSymbol t)
         ∧ Resolve h (Some 0%nat) t = Some (builtinSymbol t)
         ∧ Symbol.Kind (builtinSymbol t) = SymType)
    ∧ (∀ sym, Symbol.Name sym ∈ builtinTypes →
         Define 0 sym h = (h, Panic ("redeclaration of " +:+ Symbol.Name sym))).
Proof.
  destruct (BuildSymbols_root stmts) as (h & sc & Hb & Hwf & Hsc & Hp & Hin & _).
  exists h, sc. split_and!; [done|done| |done| |].
  - rewrite BuildSymbols_eq in Hb. congruence.
  - intros t Ht. split_and!; [by apply builtinScope_lookup|by apply Hin| |done].
    rewrite (Resolve_root h sc t Hsc Hp). by apply Hin.
  - intros sym Hsym. unfold Define. rewrite Hsc. by rewrite (Hin _ Hsym).
Qed.

Lemma builtins_in_root_witness :
  ∃ h, BuildSymbols [VarStatement (Some (mkIdent "int" 1 8)) intType NilExpr]
       = (h, Ok 0%nat)
       ∧ Resolve h (Some 0%nat) "int" = Some (builtinSymbol "int").
Proof.
  destruct (builtins_in_root [VarStatement (Some (mkIdent "int" 1 8)) intType NilExpr])
    as (h & sc & Hb & _ & _ & _ & Hin & _).
  exists h. split; [exact Hb|].
  apply (Hin "int"). apply list_elem_of_here.
Defined.

(** ** The two queries *)

Lemma root_chain h sc l :
  h !! 0%nat = Some sc → Scope.Parent sc = None →
  scope_chain h (Some 0%nat) l → l = [sc].
Proof.
  intros Hsc Hp Hc. inversion Hc as [|a sc' l' Ha Hl]; simplify_eq.
  rewrite Hp in Hl. by inversion Hl.
Qed.

(** C2: a hover or definition query that has located an identifier
    resolves it in the root scope that [BuildSymbols] returns and in no
    other scope: the root has no parent, its chain is the root alone, and
    it binds built-in names and declarations of the top-level statement
    sequence only.  When the root binds the name, both answers are made
    from that root symbol; a name that is neither built-in nor declared
    at top level, as one declared inside a nested block only, resolves to
    no symbol. *)
Theorem query_resolves_in_root
  (ParseProgram : string → list Statement) (documents : gmap string string)
  (id : option Z) (params : QueryParams.t) (text : string) (ident : Identifier.t) :
  documents !! QueryParams.URI params = Some text →
  text ≠ EmptyString →
  findIdentAt (ParseProgram text) (QueryParams.Position params) = Ok (Some ident) →
  ∃ h sc,
    BuildSymbols (ParseProgram text) = (h, Ok 0%nat) ∧ h !! 0%nat = Some sc
    ∧ Scope.Parent sc = None
    ∧ (∀ l, scope_chain h (Some 0%nat) l → l = [sc])
    ∧ (∀ name, Resolve h (Some 0%nat) name = Scope.Symbols sc !! name)
    ∧ (∀ name sym, Scope.Symbols sc !! name = Some sym →
         (name ∈ builtinTypes ∧ sym = builtinSymbol name)
         ∨ declares (ParseProgram text ≫= declared) name sym)
    ∧ (Identifier.Value ident ∉ builtinTypes →
       Identifier.Value ident ∉ Identifier.Value <$> (ParseProgram text ≫= declared) →
       Scope.Symbols sc !! Identifier.Value ident = None)
    ∧ match Scope.Symbols sc !! Identifier.Value ident with
      | None =>
          handleHover ParseProgram documents id params = Ok (sendResponse id Null)
          ∧ handleDefinition ParseProgram documents id params = Ok []
      | Some sym =>
          handleHover ParseProgram documents id params
          = Ok (sendResponse id
                  (HoverValue "markdown" (hoverFromSymbol (typedSymbol h 0 sym))))
          ∧ handleDefinition ParseProgram documents id params
            = match Symbol.Ident sym with
              | None => Panic nil_deref
              | Some decl =>
                  Ok (sendResponse id
                        (LocationValue
                           (declLocation (QueryParams.URI params) decl ident)))
              end
      end.
Proof.
  intros Hdoc Htext Hfind.
  destruct (BuildSymbols_root (ParseProgram text))
    as (h & sc & Hb & Hwf & Hsc & Hp & Hin & Hout).
  exists h, sc.
  assert (∀ name, Resolve h (Some 0%nat) name = Scope.Symbols sc !! name) as Hres
    by (intros name; by apply Resolve_root).
  split_and!; [done|done|done| |done|done| |].
  - intros l. by apply root_chain.
  - intros Hnb Hnd. destruct (Scope.Symbols sc !! Identifier.Value ident) as [sym|] eqn:E;
      [|done].
    destruct (Hout _ _ E) as [[Hb' _]|(d & Hd & _ & _ & Hv)]; [done|].
    exfalso. apply Hnd. apply list_elem_of_fmap. by exists d.
  - assert ((text =? EmptyString)%string = false) as Hne by (by apply String.eqb_neq).
    unfold handleHover, handleDefinition. rewrite Hdoc. simpl. rewrite Hne, Hb, Hfind.
    simpl. rewrite Hres.
    destruct (Scope.Symbols sc !! Identifier.Value ident) as [sym|]; [|done].
    split; [done|]. by destruct (Symbol.Ident sym).
Qed.

Lemma query_resolves_in_root_witness :
  handleHover (λ _, nestedProgram) (oneDocument "src") (Some 1) (queryAt 1 0)
  = Ok (sendResponse (Some 1) Null)
  ∧ handleDefinition (λ _, nestedProgram) (oneDocument "src") (Some 1) (queryAt 1 0)
    = Ok [].
Proof.
  destruct (query_resolves_in_root (λ _, nestedProgram) (oneDocument "src") (Some 1)
              (queryAt 1 0) "src" (mkIdent "x" 2 2))
    as (h & sc & _ & _ & _ & _ & _ & _ & Hnone & Hans).
  - reflexivity.
  - discriminate.
  - reflexivity.
  - rewrite Hnone in Hans; [exact Hans| |].
    + apply (bool_decide_unpack _). vm_compute. exact I.
    + apply (bool_decide_unpack _). vm_compute. exact I.
Defined.

(** The use of [x] below the inner declaration is answered from the
    outer [x] of the root. *)
Example shadowed_use_gets_outer :
  handleHover (λ _, shadowProgram) (oneDocument "src") (Some 1) (queryAt 1 25)
  = Ok [ResponseMsg (Response.mk "2.0" 1 (HoverValue "markdown" (fence "egg x string")))]
  ∧ handleDefinition (λ _, shadowProgram) (oneDocument "src") (Some 1) (queryAt 1 25)
    = Ok [ResponseMsg
            (Response.mk "2.0" 1
               (LocationValue
                  (declLocation "file:///a.ayla" (mkIdent "x" 1 6) (mkIdent "x" 2 27))))].
Proof. split; vm_compute; reflexivity. Qed.

(** ** Duplicate declarations *)

Lemma range_app {A} (f : A → M unit) l1 l2 h :
  range f (l1 ++ l2) h = bind (range f l1) (λ _, range f l2) h.
Proof.
  revert h. induction l1 as [|x l1 IH]; intros h; simpl; [done|].
  unfold bind in *. destruct (f x h) as [h1 [[]|msg]]; [apply IH|done].
Qed.

Lemma range_panics {A} (f : A → M unit) pre d post h h1 h2 msg :
  range f pre h = (h1, Ok tt) → f d h1 = (h2, Panic msg) →
  range f (pre ++ d :: post) h = (h2, Panic msg).
Proof.
  intros Hpre Hd. rewrite range_app. unfold bind. rewrite Hpre. simpl.
  unfold bind. by rewrite Hd.
Qed.

Lemma grows_keeps scope ids h h' sc n sym :
  grows scope ids h h' → h !! scope = Some sc → Scope.Symbols sc !! n = Some sym →
  ∃ sc', h' !! scope = Some sc' ∧ Scope.Symbols sc' !! n = Some sym.
Proof.
  intros Hg Hsc Hn. destruct (grows_scope _ _ _ _ Hg sc Hsc) as (sc' & H1 & _ & H3 & _).
  exists sc'. auto.
Qed.

Lemma Define_duplicate scope sym h sc old :
  h !! scope = Some sc → Scope.Symbols sc !! Symbol.Name sym = Some old →
  Define scope sym h = (h, Panic ("redeclaration of " +:+ Symbol.Name sym)).
Proof. intros Hsc Hold. unfold Define. by rewrite Hsc, Hold. Qed.

(** C1, as the code has it: a [Define] of a name the scope already binds
    panics and changes nothing.  When a statement of a sequence panics,
    as a duplicate declaration does, the [buildInScope] call of that
    sequence recovers and returns, with the heap as the panic left it:
    the statements after it in that sequence are skipped, and every
    binding the scope had before stays.  A block that contains such a
    sequence does not stop the sequence around it, and [BuildSymbols]
    returns the root scope in every case. *)
Theorem duplicate_stops_its_sequence
  (scope : nat) (pre post : list Statement) (d : Statement) (h h1 h2 : Heap)
  (msg : string) :
  (scope < length h)%nat →
  range (buildStmt scope) pre h = (h1, Ok tt) →
  buildStmt scope d h1 = (h2, Panic msg) →
  (∀ sc sym old,
     h1 !! scope = Some sc → Scope.Symbols sc !! Symbol.Name sym = Some old →
     Define scope sym h1 = (h1, Panic ("redeclaration of " +:+ Symbol.Name sym)))
  ∧ buildInScope scope (pre ++ d :: post) h = (h2, Ok tt)
  ∧ (∀ sc n sym, h1 !! scope = Some sc → Scope.Symbols sc !! n = Some sym →
       ∃ sc2, h2 !! scope = Some sc2 ∧ Scope.Symbols sc2 !! n = Some sym)
  ∧ (∀ outer cond rest h0,
       buildInScope outer (WhileStatement cond (pre ++ d :: post) :: rest) h0
       = buildInScope outer rest
           (buildInScope (length h0) (pre ++ d :: post)
              (h0 ++ [Scope.mk (Some outer) ∅])).1)
  ∧ (∀ stmts, (BuildSymbols stmts).2 = Ok 0%nat).
Proof.
  intros Hsc Hpre Hd. split_and!.
  - intros sc sym old. apply Define_duplicate.
  - unfold buildInScope, recover. by rewrite (range_panics _ _ _ _ _ _ _ _ Hpre Hd).
  - intros sc n sym Hlook Hn.
    assert (scope < length h1)%nat as Hsc1 by (by eapply lookup_lt_Some).
    pose proof (buildStmt_grows d scope h1 Hsc1) as Hg. rewrite Hd in Hg.
    by eapply grows_keeps.
  - reflexivity.
  - intros stmts. by rewrite BuildSymbols_eq.
Qed.

Lemma duplicate_stops_its_sequence_witness :
  buildInScope 0 dupTop [builtinScope]
  = ((buildInScope 0 (take 1 dupTop) [builtinScope]).1, Ok tt).
Proof.
  destruct (duplicate_stops_its_sequence 0 (take 1 dupTop) (drop 2 dupTop)
              (VarStatement (Some (mkIdent "x" 2 6)) intType NilExpr)
              [builtinScope]
              (buildInScope 0 (take 1 dupTop) [builtinScope]).1
              (buildInScope 0 (take 1 dupTop) [builtinScope]).1
              "redeclaration of x") as (_ & Hstop & _).
  - simpl. lia.
  - vm_compute. reflexivity.
  - vm_compute. reflexivity.
  - exact Hstop.
Defined.

(** C1, as the claim has it, fails: the body of [f] declares [x] twice,
    yet [y], declared after it, is defined in the root, and the hover
    and the definition query on [y] are answered. *)
Lemma duplicate_counterexample :
  (range (buildStmt 1) dupBody
     (buildInScope 0 (take 1 dupProgram) [builtinScope]).1).2
  = Panic "redeclaration of x"
  ∧ (∃ sym, Resolve (BuildSymbols dupProgram).1 (Some 0%nat) "y" = Some sym
            ∧ Symbol.Ident sym = Some (mkIdent "y" 2 6))
  ∧ handleHover (λ _, dupProgram) (oneDocument "src") (Some 1) (queryAt 2 0)
    = Ok [ResponseMsg
            (Response.mk "2.0" 1
               (HoverValue "markdown" (fence "egg y int")))]
  ∧ (∃ loc, handleDefinition (λ _, dupProgram) (oneDocument "src") (Some 1)
              (queryAt 2 0)
            = Ok [ResponseMsg (Response.mk "2.0" 1 (LocationValue loc))]).
Proof.
  split_and!.
  - vm_compute. reflexivity.
  - eexists. split; vm_compute; reflexivity.
  - vm_compute. reflexivity.
  - eexists. vm_compute. reflexivity.
Qed.

(** ** Type inference *)

Lemma sameTypeNode_structEq a b : sameTypeNode a b = true ↔ structEq a b.
Proof.
  split.
  - revert b. induction a as [|ba na|ea IH| |]; intros b Hs; simpl in Hs; try done.
    + destruct b as [|bb nb| | |]; try done.
      apply String.eqb_eq in Hs as ->. constructor.
    + destruct b as [| |eb| |]; try done. constructor. by apply IH.
  - induction 1 as [b1 b2 name|e1 e2 _ IH]; simpl; [apply String.eqb_refl|done].
Qed.

Lemma structEq_not_nil_l a b : structEq a b → a ≠ NilType ∧ b ≠ NilType.
Proof. by destruct 1. Qed.

(** A struct type, like the nil type, is structurally equal to no type. *)
Lemma structEq_struct fields t : ¬ structEq (StructType fields) t.
Proof. by inversion 1. Qed.

Lemma isNil_true t : isNil t = true ↔ t = NilType.
Proof. by destruct t. Qed.

Lemma isNil_false t : isNil t = false ↔ t ≠ NilType.
Proof. by destruct t. Qed.

Lemma isIdent_named t name : isIdent t name = true ↔ named name t.
Proof.
  unfold named. destruct t as [|b n| | |]; simpl; split; try done;
    try (by intros [? ?]).
  - intros ->%String.eqb_eq. by exists b.
  - intros [b' [= -> ->]]. apply String.eqb_refl.
Qed.

(** C7: the type of a binary expression from the types [L] and [R] of its
    operands.  It is unknown when [L] or [R] is; it is [L] when [L] and
    [R] are structurally equal; otherwise it is the floating-point type
    when one is [int] and the other [float], in either order; and it is
    unknown for every other pair.  So [1 + 2.5] is [float], [1 + 2] is
    [int] and ["a" + 1] is unknown. *)
Theorem infix_inference (h : Heap) (scope : option nat) (l r : Expression)
  (op : string) :
  let L := inferExprType h scope l in
  let R := inferExprType h scope r in
  let T := inferExprType h scope (InfixExpression l op r) in
  (L = unknown ∨ R = unknown → T = unknown)
  ∧ (structEq L R → T = L)
  ∧ (¬ structEq L R →
     (named "int" L ∧ named "float" R) ∨ (named "float" L ∧ named "int" R) →
     T = IdentType zeroBase "float")
  ∧ (L ≠ unknown → R ≠ unknown → ¬ structEq L R →
     ¬ ((named "int" L ∧ named "float" R) ∨ (named "float" L ∧ named "int" R)) →
     T = unknown)
  ∧ inferExprType h scope (InfixExpression (IntLiteral 1) "+" (FloatLiteral "2.5"))
    = IdentType zeroBase "float"
  ∧ inferExprType h scope (InfixExpression (IntLiteral 1) "+" (IntLiteral 2))
    = IdentType zeroBase "int"
  ∧ inferExprType h scope (InfixExpression (StringLiteral "a") "+" (IntLiteral 1))
    = unknown.
Proof.
  intros L R T. subst T. simpl. fold L R.
  split_and!; try reflexivity.
  - intros [HL|HR].
    + apply isNil_true in HL. by rewrite HL.
    + apply isNil_true in HR. rewrite HR. by rewrite orb_true_r.
  - intros Heq. destruct (structEq_not_nil_l _ _ Heq) as [HL HR].
    apply isNil_false in HL, HR. rewrite HL, HR. simpl.
    apply sameTypeNode_structEq in Heq. by rewrite Heq.
  - intros Hne Hmix.
    assert (sameTypeNode L R = false) as Hs.
    { apply not_true_is_false. by rewrite sameTypeNode_structEq. }
    assert (isNil L = false ∧ isNil R = false) as [HL HR].
    { destruct Hmix as [[[? ->] [? ->]]|[[? ->] [? ->]]]; done. }
    rewrite HL, HR, Hs. simpl.
    destruct Hmix as [[Hi Hf]|[Hf Hi]];
      apply isIdent_named in Hi, Hf; rewrite Hi, Hf; simpl; [done|].
    by rewrite orb_true_r.
  - intros HL HR Hne Hmix.
    apply isNil_false in HL, HR. rewrite HL, HR. simpl.
    assert (sameTypeNode L R = false) as Hs.
    { apply not_true_is_false. by rewrite sameTypeNode_structEq. }
    rewrite Hs.
    destruct (isIdent L "int" && isIdent R "float"
              || isIdent L "float" && isIdent R "int") eqn:E; [|done].
    exfalso. apply Hmix.
    apply orb_true_iff in E as [E|E]; apply andb_true_iff in E as [E1 E2];
      apply isIdent_named in E1, E2; auto.
Qed.

Lemma infix_inference_witness :
  inferExprType demoHeap (Some 1%nat)
    (InfixExpression (Ident (mkIdent "x" 1 2)) "+" (IntLiteral 1))
  = unknown.
Proof.
  destruct (infix_inference demoHeap (Some 1%nat) (Ident (mkIdent "x" 1 2))
              (IntLiteral 1) "+") as (Hunk & _).
  apply Hunk. left. reflexivity.
Defined.

Lemma element_check T0 t :
  negb (isNil t || negb (sameTypeNode T0 t)) = true ↔ structEq T0 t.
Proof.
  rewrite negb_true_iff, orb_false_iff, negb_false_iff, sameTypeNode_structEq.
  split; [by intros [_ ?]|]. intros Heq. split; [|done].
  apply isNil_false. by destruct (structEq_not_nil_l _ _ Heq).
Qed.

Lemma elements_check h scope T0 rest :
  forallb (λ el, negb (isNil (inferExprType h scope el)
                       || negb (sameTypeNode T0 (inferExprType h scope el)))) rest
  = true
  ↔ Forall (λ el, structEq T0 (inferExprType h scope el)) rest.
Proof.
  induction rest as [|el rest IH]; simpl.
  - split; [constructor|done].
  - rewrite andb_true_iff, IH, element_check. split.
    + intros [? ?]. by constructor.
    + by inversion 1.
Qed.

Lemma inferExprType_array_cons h scope e0 rest :
  inferExprType h scope (ArrayLiteral (e0 :: rest))
  = if isNil (inferExprType h scope e0) then NilType
    else if forallb (λ el, negb (isNil (inferExprType h scope el)
                                 || negb (sameTypeNode (inferExprType h scope e0)
                                            (inferExprType h scope el)))) rest
         then ArrayType (inferExprType h scope e0)
         else NilType.
Proof. reflexivity. Qed.

(** C8: an array literal without elements has the unknown type.  With a
    first element of type [T0] and further elements, the literal is
    unknown when [T0] is unknown, it is array-of-[T0] when every further
    element has a type structurally equal to [T0], and it is unknown when
    some further element is unknown or differs from [T0]; the comparison
    [sameTypeNode] is structural equality.  So [[1, 2, 3]] is array of
    [int], and [[1, "a"]] is unknown. *)
Theorem array_inference (h : Heap) (scope : option nat) :
  inferExprType h scope (ArrayLiteral []) = unknown
  ∧ (∀ e0 rest,
       let T0 := inferExprType h scope e0 in
       let T := inferExprType h scope (ArrayLiteral (e0 :: rest)) in
       (T0 = unknown → T = unknown)
       ∧ (T0 ≠ unknown →
          Forall (λ el, structEq T0 (inferExprType h scope el)) rest →
          T = ArrayType T0)
       ∧ (Exists (λ el, inferExprType h scope el = unknown
                        ∨ ¬ structEq T0 (inferExprType h scope el)) rest →
          T = unknown))
  ∧ (∀ a b, sameTypeNode a b = true ↔ structEq a b)
  ∧ inferExprType h scope (ArrayLiteral [IntLiteral 1; IntLiteral 2; IntLiteral 3])
    = ArrayType (IdentType zeroBase "int")
  ∧ inferExprType h scope (ArrayLiteral [IntLiteral 1; StringLiteral "a"]) = unknown.
Proof.
  split_and!; try reflexivity; [|apply sameTypeNode_structEq].
  intros e0 rest T0 T. subst T. rewrite inferExprType_array_cons. fold T0.
  split_and!.
  - intros HT. apply isNil_true in HT. by rewrite HT.
  - intros HT Hall. apply isNil_false in HT. rewrite HT.
    apply elements_check in Hall. by rewrite Hall.
  - intros Hex. destruct (isNil T0); [done|].
    match goal with |- context [forallb ?f rest] => destruct (forallb f rest) eqn:E end;
      [|done].
    exfalso. apply elements_check in E.
    apply Exists_exists in Hex as (el & Hin & Hbad).
    rewrite Forall_forall in E. specialize (E el Hin).
    destruct Hbad as [Hnil|Hne]; [|done].
    rewrite Hnil in E. by destruct (structEq_not_nil_l _ _ E).
Qed.

Lemma array_inference_witness :
  inferExprType demoHeap (Some 0%nat) (ArrayLiteral [IntLiteral 7; IntLiteral 1])
  = ArrayType (IdentType zeroBase "int").
Proof.
  destruct (array_inference demoHeap (Some 0%nat)) as (_ & Hcons & _).
  destruct (Hcons (IntLiteral 7) [IntLiteral 1]) as (_ & Hsame & _).
  apply Hsame; [discriminate|]. repeat constructor.
Defined.

(** ** Diagnostics *)

Lemma tokenRange_eq pe :
  1 <= ParseError.Line pe <= int_max → 1 <= ParseError.Column pe →
  ParseError.Column pe - 1 + Z.max (len (Token.Literal (ParseError.Token pe))) 1
  <= int_max →
  tokenRange pe
  = Range.mk
      (Position.mk (ParseError.Line pe - 1) (ParseError.Column pe - 1))
      (Position.mk (ParseError.Line pe - 1)
         (ParseError.Column pe - 1
          + Z.max (len (Token.Literal (ParseError.Token pe))) 1)).
Proof.
  intros HL HC Hend. unfold tokenRange, int_sub, int_add.
  pose proof (len_nonneg (Token.Literal (ParseError.Token pe))) as Hn.
  assert (int_min < 0 ∧ 0 < int_max) as [? ?] by (unfold int_min, int_max; lia).
  rewrite !(wrap_small (ParseError.Line pe - 1)) by (unfold in_int; lia).
  rewrite !(wrap_small (ParseError.Column pe - 1)) by (unfold in_int; lia).
  destruct (Z.eqb_spec (len (Token.Literal (ParseError.Token pe))) 0) as [E|E].
  - rewrite E in *. rewrite wrap_small by (unfold in_int; lia). done.
  - rewrite wrap_small by (unfold in_int; lia). do 3 f_equal. lia.
Qed.

Lemma collectDiagnostics_eq ErrorText errs :
  collectDiagnostics ErrorText errs
  = (λ pe, Diagnostic.mk (tokenRange pe) severityError (ErrorText pe))
      <$> structuredErrors errs.
Proof.
  induction errs as [|[pe|msg] errs IH]; simpl; [done| |done].
  by rewrite IH.
Qed.

(** C9: for a structured parse error at one-based line [L] and column
    [C] whose offending token has [n] bytes, with the coordinates in the
    range of [int], the range is (L-1, C-1) to (L-1, C-1 + max n 1); the
    diagnostics pass emits, for the structured errors in order, one
    diagnostic each, with that range, severity error and the rendered
    message.  An error at line 1, column 5 with a token of 3 bytes has
    the range (0,4) to (0,7). *)
Theorem diagnostic_range (ErrorText : ParseError.t → string) (pe : ParseError.t) :
  1 <= ParseError.Line pe <= int_max →
  1 <= ParseError.Column pe →
  ParseError.Column pe - 1 + Z.max (len (Token.Literal (ParseError.Token pe))) 1
  <= int_max →
  let range :=
    Range.mk
      (Position.mk (ParseError.Line pe - 1) (ParseError.Column pe - 1))
      (Position.mk (ParseError.Line pe - 1)
         (ParseError.Column pe - 1
          + Z.max (len (Token.Literal (ParseError.Token pe))) 1)) in
  tokenRange pe = range
  ∧ (∀ errs, ParseErr pe ∈ errs →
       Diagnostic.mk range severityError (ErrorText pe)
       ∈ collectDiagnostics ErrorText errs)
  ∧ (∀ errs,
       collectDiagnostics ErrorText errs
       = (λ e, Diagnostic.mk (tokenRange e) severityError (ErrorText e))
           <$> structuredErrors errs)
  ∧ (∀ Errors uri text,
       publishDiagnostics Errors ErrorText uri text
       = [NotificationMsg "textDocument/publishDiagnostics" uri
            (collectDiagnostics ErrorText (Errors text))])
  ∧ (∀ tok detail, len (Token.Literal tok) = 3 →
       tokenRange (ParseError.mk 1 5 tok detail)
       = Range.mk (Position.mk 0 4) (Position.mk 0 7)).
Proof.
  intros HL HC Hend range.
  assert (tokenRange pe = range) as Hr by (by apply tokenRange_eq).
  split_and!; [done| |apply collectDiagnostics_eq|done|].
  - intros errs Hin. rewrite collectDiagnostics_eq, <- Hr.
    apply list_elem_of_fmap. exists pe. split; [done|].
    unfold structuredErrors. apply list_elem_of_omap. by exists (ParseErr pe).
  - intros tok detail Hlen. rewrite tokenRange_eq; simpl; rewrite ?Hlen;
      unfold int_max; try lia. done.
Qed.

Lemma diagnostic_range_witness :
  tokenRange (ParseError.mk 1 5 (Token.mk "foo" 1 5) "unexpected token")
  = Range.mk (Position.mk 0 4) (Position.mk 0 7).
Proof.
  exact (proj1 (diagnostic_range (λ pe, ParseError.Detail pe)
                  (ParseError.mk 1 5 (Token.mk "foo" 1 5) "unexpected token")
                  ltac:(vm_compute; split; discriminate)
                  ltac:(vm_compute; discriminate)
                  ltac:(vm_compute; discriminate))).
Defined.

(** ** Positions *)

(** The span of a token: on the zero-based line [Line - 1], the columns
    from [Column - 1 - len] up to, not including, [Column - 1]. *)
Lemma posInsideTok_span tok pos :
  1 <= Token.Line tok <= int_max →
  len (Token.Literal tok) + 1 <= Token.Column tok <= int_max →
  posInsideTok tok pos = true
  ↔ Position.Line pos = Token.Line tok - 1
    ∧ Token.Column tok - 1 - len (Token.Literal tok) <= Position.Character pos
      < Token.Column tok - 1.
Proof.
  intros HL HC. unfold posInsideTok, int_sub.
  pose proof (len_nonneg (Token.Literal tok)) as Hn.
  assert (int_min < 0 ∧ 0 < int_max) as [? ?] by (unfold int_min, int_max; lia).
  rewrite !(wrap_small (Token.Line tok - 1)) by (unfold in_int; lia).
  rewrite !(wrap_small (Token.Column tok - 1)) by (unfold in_int; lia).
  rewrite wrap_small by (unfold in_int; lia).
  destruct (Z.eqb_spec (Position.Line pos) (Token.Line tok - 1)) as [E|E]; simpl.
  - rewrite andb_true_iff, Z.leb_le, Z.ltb_lt. tauto.
  - split; [done|]. tauto.
Qed.

(** The location of a definition starts at the column that ends the
    declaring token, which is not a column of that token. *)
Lemma declLocation_start uri decl ident :
  1 <= Token.Line (NodeBase.Token (Identifier.NodeBase decl)) <= int_max →
  len (Token.Literal (NodeBase.Token (Identifier.NodeBase decl))) + 1
  <= Token.Column (NodeBase.Token (Identifier.NodeBase decl)) <= int_max →
  Range.Start (Location.Range (declLocation uri decl ident))
  = Position.mk (Token.Line (NodeBase.Token (Identifier.NodeBase decl)) - 1)
      (Token.Column (NodeBase.Token (Identifier.NodeBase decl)) - 1)
  ∧ ¬ inside (Range.Start (Location.Range (declLocation uri decl ident))) decl.
Proof.
  intros HL HC.
  pose proof (len_nonneg (Token.Literal (NodeBase.Token (Identifier.NodeBase decl)))).
  assert (int_min < 0 ∧ 0 < int_max) as [? ?] by (unfold int_min, int_max; lia).
  assert (Range.Start (Location.Range (declLocation uri decl ident))
          = Position.mk (Token.Line (NodeBase.Token (Identifier.NodeBase decl)) - 1)
              (Token.Column (NodeBase.Token (Identifier.NodeBase decl)) - 1)) as ->.
  { unfold declLocation, Pos, int_sub. simpl.
    rewrite !wrap_small by (unfold in_int; lia). done. }
  split; [done|]. unfold inside. rewrite posInsideTok_span by done. simpl. lia.
Qed.

(** C3, at [egg count int] on line 2 and a use of [count] on line 3: the
    definition query at the use answers with the columns 9 to 14 of the
    zero-based line 1, while the declaring identifier occupies the
    columns 4 to 8 of that line. *)
Theorem definition_range_after_identifier :
  handleDefinition (λ _, countProgram) (oneDocument "src") (Some 1) (queryAt 2 0)
  = Ok [ResponseMsg
          (Response.mk "2.0" 1
             (LocationValue
                (Location.mk "file:///a.ayla"
                   (Range.mk (Position.mk 1 9) (Position.mk 1 14)))))]
  ∧ (∀ c, posInsideTok (NodeBase.Token (Identifier.NodeBase countDecl))
            (Position.mk 1 c) = true ↔ 4 <= c < 9)
  ∧ findIdentAt countProgram (Position.mk 1 4) = Ok (Some countDecl)
  ∧ findIdentAt countProgram (Position.mk 1 9) = Ok None.
Proof.
  split_and!; try (vm_compute; reflexivity).
  intros c. rewrite posInsideTok_span by (vm_compute; split; discriminate).
  simpl. change (len "count") with 5. lia.
Qed.

(** C5, at a use of an undeclared [x]: the hover request is answered with
    a null result, the definition request with no message at all. *)
Theorem definition_unresolved_no_response :
  Resolve (BuildSymbols undeclaredProgram).1 (Some 0%nat) "x" = None
  ∧ findIdentAt undeclaredProgram (Position.mk 0 0) = Ok (Some (mkIdent "x" 1 2))
  ∧ handleHover (λ _, undeclaredProgram) (oneDocument "src") (Some 7) (queryAt 0 0)
    = Ok [ResponseMsg (Response.mk "2.0" 7 Null)]
  ∧ handleDefinition (λ _, undeclaredProgram) (oneDocument "src") (Some 7)
      (queryAt 0 0)
    = Ok [].
Proof. split_and!; vm_compute; reflexivity. Qed.

(** C4, at [type T int] followed by [egg x int]: a query inside [x], and
    a query on the blank before it, both return the identifier made up
    for the type statement.  And at [x := 5] followed by [egg ys = [x]]:
    neither the declared [x] nor the [x] inside the array literal is
    found at its own span. *)
Theorem position_lookup_misses :
  posInsideTok (Token.mk "x" 2 6) (Position.mk 1 4) = true
  ∧ findIdentAt typeThenVar (Position.mk 1 4)
    = Ok (Some (Identifier.mk typeBase "int"))
  ∧ findIdentAt typeThenVar (Position.mk 1 3)
    = Ok (Some (Identifier.mk typeBase "int"))
  ∧ posInsideTok (Token.mk "x" 1 2) (Position.mk 0 0) = true
  ∧ findIdentAt shortDecl (Position.mk 0 0) = Ok None
  ∧ posInsideTok (Token.mk "x" 2 12) (Position.mk 1 10) = true
  ∧ findIdentAt shortDecl (Position.mk 1 10) = Ok None.
Proof. split_and!; vm_compute; reflexivity. Qed.

(** ** What the position resolver returns *)

Lemma Expression_nested_ind (P : Expression → Prop) :
  (∀ e, Forall P (exprChildren e) → P e) → ∀ e, P e.
Proof.
  intros step. fix IH 1. intros e. apply step.
  destruct e as [ | | | | | | elements | | ? fields | l ? r | ? r | l i | l ?
                | ? args | ]; simpl; try constructor.
  - induction elements; constructor; [apply IH | assumption].
  - induction fields; constructor; [apply IH | assumption].
  - apply IH.
  - constructor; [apply IH | constructor].
  - apply IH.
  - constructor.
  - apply IH.
  - constructor; [apply IH | constructor].
  - apply IH.
  - constructor.
  - induction args; constructor; [apply IH | assumption].
Qed.

Lemma orElse_Some r rest id :
  orElse r rest = Ok (Some id) → r = Ok (Some id) ∨ rest = Ok (Some id).
Proof. destruct r as [[?|]|]; simpl; auto. Qed.

Lemma firstIdent_Some {A} (walk : A → found) l id :
  firstIdent walk l = Ok (Some id) → ∃ x, x ∈ l ∧ walk x = Ok (Some id).
Proof.
  induction l as [|x l IH]; simpl; [done|].
  intros [H|H]%orElse_Some.
  - exists x. split; [apply list_elem_of_here|done].
  - destruct (IH H) as (y & Hy & Hw). exists y.
    split; [by apply list_elem_of_further|done].
Qed.

Lemma walkIdentifier_Some pos n id :
  walkIdentifier pos n = Ok (Some id) → inside pos id.
Proof.
  unfold walkIdentifier, inside.
  destruct (posInsideTok _ pos) eqn:E; [|done]. by intros [= <-].
Qed.

Lemma walkName_Some pos name id : walkName pos name = Ok (Some id) → inside pos id.
Proof. destruct name; [apply walkIdentifier_Some|done]. Qed.

Lemma walkExpr_Some pos e id : walkExpr pos e = Ok (Some id) → inside pos id.
Proof.
  revert id. induction e as [e IH] using Expression_nested_ind. intros id.
  destruct e; simpl in *; try done.
  - apply walkIdentifier_Some.
  - intros [H|[H|H]%orElse_Some]%orElse_Some; [by eapply walkIdentifier_Some| |done].
    apply firstIdent_Some in H as (x & Hx & Hw).
    rewrite Forall_forall in IH. by eapply IH.
  - inversion IH as [|? ? H1 IH']; subst. inversion IH' as [|? ? H2 _]; subst.
    intros [H|H]%orElse_Some; eauto.
  - inversion IH as [|? ? H1 _]; subst. eauto.
  - inversion IH as [|? ? H1 IH']; subst. inversion IH' as [|? ? H2 _]; subst.
    intros [H|H]%orElse_Some; eauto.
  - inversion IH as [|? ? H1 _]; subst.
    intros [H|[H|H]%orElse_Some]%orElse_Some; [eauto|by eapply walkIdentifier_Some|done].
  - intros [H|[H|H]%orElse_Some]%orElse_Some; [by eapply walkIdentifier_Some| |done].
    apply firstIdent_Some in H as (x & Hx & Hw).
    rewrite Forall_forall in IH. by eapply IH.
Qed.

Lemma firstIdent_walk_Some pos (P : Statement → Prop) l id :
  Forall (λ s, P s → ∀ id, walkForIdent pos s = Ok (Some id) → inside pos id) l →
  Forall P l →
  firstIdent (walkForIdent pos) l = Ok (Some id) → inside pos id.
Proof.
  intros IH HP Hf. apply firstIdent_Some in Hf as (x & Hx & Hw).
  rewrite Forall_forall in IH, HP. by eapply IH; [|apply HP|].
Qed.

Lemma forallb_Forall_true {A} (f : A → bool) l :
  forallb f l = true → Forall (λ x, f x = true) l.
Proof.
  induction l as [|x l IH]; simpl; [constructor|].
  intros [? ?]%andb_true_iff. constructor; auto.
Qed.

(** Without a type statement, the walk returns an identifier only when
    the position lies in the span of its token. *)
Lemma walkForIdent_Some pos s id :
  typeFree s = true → walkForIdent pos s = Ok (Some id) → inside pos id.
Proof.
  intros Hfree. revert id. revert Hfree.
  induction s as [s IH] using Statement_nested_ind. intros Hfree id.
  destruct s as [ | e | name ? v | | name ? v | names ? v | | names ? v | name v
                | names v | l i v | name params body | body | | cond conseq alt
                | init cond post body | cond body | ];
    simpl in *; try done.
  - apply walkExpr_Some.
  - intros [H|H]%orElse_Some; [by eapply walkName_Some|by eapply walkExpr_Some].
  - intros [H|H]%orElse_Some; [by eapply walkName_Some|by eapply walkExpr_Some].
  - intros [H|H]%orElse_Some; [|by eapply walkExpr_Some].
    apply firstIdent_Some in H as (x & _ & Hw). by eapply walkIdentifier_Some.
  - intros [H|H]%orElse_Some; [|by eapply walkExpr_Some].
    apply firstIdent_Some in H as (x & _ & Hw). by eapply walkIdentifier_Some.
  - intros [H|H]%orElse_Some; [by eapply walkIdentifier_Some|by eapply walkExpr_Some].
  - intros [H|H]%orElse_Some; [|by eapply walkExpr_Some].
    apply firstIdent_Some in H as (x & _ & Hw). by eapply walkIdentifier_Some.
  - intros [H|[H|H]%orElse_Some]%orElse_Some; by eapply walkExpr_Some.
  - intros [H|[H|[H|H]%orElse_Some]%orElse_Some]%orElse_Some;
      [by eapply walkName_Some| | |done].
    + by apply firstIdent_Some in H as (x & _ & Hw).
    + eapply (firstIdent_walk_Some pos (λ s, typeFree s = true)); [done| |done].
      by apply forallb_Forall_true.
  - intros [H|H]%orElse_Some; [|done].
    eapply (firstIdent_walk_Some pos (λ s, typeFree s = true)); [done| |done].
    by apply forallb_Forall_true.
  - apply andb_true_iff in Hfree as [Hc Ha]. apply Forall_app in IH as [IHc IHa].
    intros [H|[H|[H|H]%orElse_Some]%orElse_Some]%orElse_Some;
      [by eapply walkExpr_Some| | |done].
    + apply (firstIdent_walk_Some pos (λ s, typeFree s = true) conseq);
        [exact IHc|by apply forallb_Forall_true|exact H].
    + destruct alt as [stmts|]; [|done]. simpl in IHa.
      apply (firstIdent_walk_Some pos (λ s, typeFree s = true) stmts);
        [exact IHa|by apply forallb_Forall_true|exact H].
  - apply andb_true_iff in Hfree as [[Hi Hp]%andb_true_iff Hb].
    inversion IH as [|? ? IHi IH']; subst. inversion IH' as [|? ? IHp IHb]; subst.
    intros [H|[H|[H|[H|H]%orElse_Some]%orElse_Some]%orElse_Some]%orElse_Some;
      [eauto|by eapply walkExpr_Some|eauto| |done].
    apply (firstIdent_walk_Some pos (λ s, typeFree s = true) body);
      [exact IHb|by apply forallb_Forall_true|exact H].
  - intros [H|[H|H]%orElse_Some]%orElse_Some; [by eapply walkExpr_Some| |done].
    apply (firstIdent_walk_Some pos (λ s, typeFree s = true) body);
      [exact IH|by apply forallb_Forall_true|exact H].
Qed.

Lemma findIdentAt_inside statements pos id :
  forallb typeFree statements = true →
  findIdentAt statements pos = Ok (Some id) → inside pos id.
Proof.
  intros Hfree Hf. apply firstIdent_Some in Hf as (s & Hs & Hw).
  apply forallb_Forall_true in Hfree. rewrite Forall_forall in Hfree.
  eapply walkForIdent_Some; [by apply Hfree|done].
Qed.

(** * Further properties of the scope table *)

(** What resolving [name] reads of a scope: its parent and its binding
    of [name]. *)
Lemma ResolveFrom_agree_name h h' name fuel :
  heap_wf h →
  ∀ a,
    (∀ b, (b ≤ a)%nat →
          (λ sc, (Scope.Parent sc, Scope.Symbols sc !! name)) <$> h' !! b
          = (λ sc, (Scope.Parent sc, Scope.Symbols sc !! name)) <$> h !! b) →
    ResolveFrom fuel h' (Some a) name = ResolveFrom fuel h (Some a) name.
Proof.
  intros Hwf. induction fuel as [|fuel IH]; intros a Hag; [done|].
  simpl. pose proof (Hag a (Nat.le_refl a)) as Ha.
  destruct (h !! a) as [sc|] eqn:Hsc, (h' !! a) as [sc'|] eqn:Hsc';
    simpl in Ha; try done.
  injection Ha as Hp Hn. rewrite Hn.
  destruct (Scope.Symbols sc !! name); [done|]. rewrite Hp.
  destruct (Scope.Parent sc) as [p|] eqn:Hpar; [|by destruct fuel].
  apply IH. intros b Hb. apply Hag. pose proof (Hwf a sc p Hsc Hpar). lia.
Qed.

Lemma ResolveFrom_fuel h a name fuel :
  heap_wf h → (a < length h)%nat → (a < fuel)%nat →
  ResolveFrom fuel h (Some a) name = Resolve h (Some a) name.
Proof.
  intros Hwf Ha Hfuel.
  destruct (scope_chain_exists h Hwf a Ha) as [l Hl].
  pose proof (scope_chain_length h _ l Hwf Hl a eq_refl).
  unfold Resolve. rewrite !(ResolveFrom_chain h name _ l Hl) by lia. done.
Qed.

Lemma Resolve_agree_name h h' a name :
  heap_wf h → (a < length h)%nat → (length h ≤ length h')%nat →
  (∀ b, (b ≤ a)%nat →
        (λ sc, (Scope.Parent sc, Scope.Symbols sc !! name)) <$> h' !! b
        = (λ sc, (Scope.Parent sc, Scope.Symbols sc !! name)) <$> h !! b) →
  Resolve h' (Some a) name = Resolve h (Some a) name.
Proof.
  intros Hwf Ha Hlen Hag. unfold Resolve at 1.
  rewrite (ResolveFrom_agree_name h h' name (length h') Hwf a Hag).
  apply ResolveFrom_fuel; [done|done|lia].
Qed.

Lemma Define_wf s sym h : heap_wf h → heap_wf (Define s sym h).1.
Proof.
  intros Hwf. unfold Define. destruct (h !! s) as [sc|] eqn:Hsc; [|done].
  destruct (Scope.Symbols sc !! Symbol.Name sym); [done|]. simpl.
  intros a sc' p Ha Hp. destruct (decide (a = s)) as [->|Hne].
  - rewrite list_lookup_insert_eq in Ha by (by eapply lookup_lt_Some).
    simplify_eq. simpl in Hp. by apply (Hwf s sc p).
  - rewrite list_lookup_insert_ne in Ha by done. by apply (Hwf a sc' p).
Qed.

(** X1: a [Define] in a scope that does not itself bind the name
    succeeds, whatever the enclosing scopes bind.  Afterwards the name
    resolves to the new symbol from that scope, every other name resolves
    from every scope as before, and every older scope, the parent among
    them, resolves every name as before. *)
Theorem Define_then_Resolve (h : Heap) (s : nat) (sym : Symbol.t) (sc : Scope.t) :
  heap_wf h →
  h !! s = Some sc →
  Scope.Symbols sc !! Symbol.Name sym = None →
  ∃ h',
    Define s sym h = (h', Ok tt)
    ∧ heap_wf h' ∧ length h' = length h
    ∧ Resolve h' (Some s) (Symbol.Name sym) = Some sym
    ∧ (∀ b name, name ≠ Symbol.Name sym →
         Resolve h' (Some b) name = Resolve h (Some b) name)
    ∧ (∀ b name, (b < s)%nat →
         Resolve h' (Some b) name = Resolve h (Some b) name).
Proof.
  intros Hwf Hsc Hfree.
  assert (s < length h)%nat as Hs by (by eapply lookup_lt_Some).
  pose proof (Define_wf s sym h Hwf) as Hwf'.
  unfold Define in *. rewrite Hsc, Hfree in *. simpl in Hwf'.
  eexists. split; [done|].
  set (h' := <[s := _]> h) in *.
  assert (length h' = length h) as Hlen by apply length_insert.
  assert (h' !! s = Some (Scope.mk (Scope.Parent sc)
                            (<[Symbol.Name sym := sym]> (Scope.Symbols sc)))) as Hs'
    by (by apply list_lookup_insert_eq).
  split_and!; [done|done| | |].
  - unfold Resolve. rewrite Hlen. destruct (length h) as [|n]; [lia|].
    simpl. rewrite Hs'. simpl. by rewrite lookup_insert_eq.
  - intros b name Hne.
    destruct (decide (b < length h)%nat) as [Hb|Hb].
    + apply Resolve_agree_name; [done|done|lia|].
      intros c _. destruct (decide (c = s)) as [->|Hcs].
      * rewrite Hs', Hsc. simpl. by rewrite lookup_insert_ne.
      * unfold h'. by rewrite list_lookup_insert_ne.
    + unfold Resolve. rewrite Hlen.
      destruct (length h) as [|n] eqn:E; [done|]. simpl.
      rewrite !lookup_ge_None_2; [done|lia|lia].
  - intros b name Hb. apply Resolve_agree; [done|lia|lia|].
    intros c Hc. unfold h'. apply list_lookup_insert_ne. lia.
Qed.

Lemma Define_then_Resolve_witness :
  ∃ h', Define 1 (Symbol.mk SymConst "y" None NilType NilExpr None) demoHeap
        = (h', Ok tt)
        ∧ Resolve h' (Some 1%nat) "y"
          = Some (Symbol.mk SymConst "y" None NilType NilExpr None)
        ∧ Resolve h' (Some 0%nat) "y" = Resolve demoHeap (Some 0%nat) "y".
Proof.
  destruct (Define_then_Resolve demoHeap 1
              (Symbol.mk SymConst "y" None NilType NilExpr None)
              (Scope.mk (Some 0%nat) {["x" := demoInner]}))
    as (h' & Hd & _ & _ & Hnew & _ & Hold).
  - intros a sc p Ha Hp.
    destruct a as [|[|a]]; simpl in Ha; simplify_eq; simpl in Hp; simplify_eq.
    lia.
  - reflexivity.
  - reflexivity.
  - exists h'. split_and!; [exact Hd|exact Hnew|]. apply Hold. lia.
Defined.

Lemma NewScope_wf h parent :
  heap_wf h → (parent < length h)%nat → heap_wf (h ++ [Scope.mk (Some parent) ∅]).
Proof.
  intros Hwf Hp a sc p Ha Hpar. destruct (decide (a < length h)%nat) as [Hlt|Hge].
  - rewrite lookup_app_l in Ha by done. by apply (Hwf a sc p).
  - rewrite lookup_app_r in Ha by lia.
    destruct (a - length h)%nat as [|k] eqn:E; simpl in Ha; [|done].
    simplify_eq. simpl in Hpar. simplify_eq. lia.
Qed.

Lemma NewScope_resolve_old h sc b name :
  heap_wf h → (b < length h)%nat →
  Resolve (h ++ [sc]) (Some b) name = Resolve h (Some b) name.
Proof.
  intros Hwf Hb. apply Resolve_agree; [done|done| |].
  - rewrite length_app. lia.
  - intros c Hc. apply lookup_app_l. lia.
Qed.

Lemma NewScope_resolve_new h parent name :
  heap_wf h → (parent < length h)%nat →
  Resolve (h ++ [Scope.mk (Some parent) ∅]) (Some (length h)) name
  = Resolve h (Some parent) name.
Proof.
  intros Hwf Hp.
  destruct (scope_chain_exists h Hwf parent Hp) as [l Hl].
  assert (scope_chain (h ++ [Scope.mk (Some parent) ∅]) (Some (length h))
            (Scope.mk (Some parent) ∅ :: l)) as Hc.
  { econstructor.
    - rewrite lookup_app_r by lia. by rewrite Nat.sub_diag.
    - simpl. apply (scope_chain_agree h); [done|done|].
      intros a b [= <-] Hb. apply lookup_app_l. lia. }
  rewrite (Resolve_chain _ _ _ name (NewScope_wf h parent Hwf Hp) Hc).
  rewrite (Resolve_chain _ _ _ name Hwf Hl). simpl. by rewrite lookup_empty.
Qed.

(** X2: a fresh scope resolves every name as its parent does, a fresh
    scope without parent resolves no name, and the scopes that exist
    resolve as before; the heap stays one in which parents are older than
    their children. *)
Theorem NewScope_inherits (h : Heap) (parent : nat) :
  heap_wf h →
  (parent < length h)%nat →
  (NewScope (Some parent) h).2 = Ok (length h)
  ∧ heap_wf (NewScope (Some parent) h).1
  ∧ (∀ name, Resolve (NewScope (Some parent) h).1 (Some (length h)) name
             = Resolve h (Some parent) name)
  ∧ (∀ name, Resolve (NewScope None h).1 (Some (length h)) name = None)
  ∧ (∀ b name, (b < length h)%nat →
       Resolve (NewScope (Some parent) h).1 (Some b) name = Resolve h (Some b) name).
Proof.
  intros Hwf Hp. unfold NewScope. simpl.
  split_and!; [done|by apply NewScope_wf| | |].
  - intros name. by apply NewScope_resolve_new.
  - intros name. unfold Resolve. rewrite length_app. simpl.
    rewrite Nat.add_1_r. simpl. rewrite lookup_app_r by lia.
    rewrite Nat.sub_diag. simpl. rewrite lookup_empty. by destruct (length h).
  - intros b name Hb. by apply NewScope_resolve_old.
Qed.

Lemma NewScope_inherits_witness :
  Resolve (NewScope (Some 1%nat) demoHeap).1 (Some 2%nat) "x" = Some demoInner.
Proof.
  destruct (NewScope_inherits demoHeap 1) as (_ & _ & Hres & _).
  - intros a sc p Ha Hp.
    destruct a as [|[|a]]; simpl in Ha; simplify_eq; simpl in Hp; simplify_eq.
    lia.
  - simpl. lia.
  - etrans; [exact (Hres "x")|reflexivity].
Defined.

(** * Further properties of the symbol builder *)

Lemma Resolve_unfold h a sc name :
  heap_wf h → h !! a = Some sc →
  Resolve h (Some a) name
  = match Scope.Symbols sc !! name with
    | Some sym => Some sym
    | None =>
        match Scope.Parent sc with
        | Some p => Resolve h (Some p) name
        | None => None
        end
    end.
Proof.
  intros Hwf Ha.
  assert (a < length h)%nat as Hlt by (by eapply lookup_lt_Some).
  destruct (scope_chain_exists h Hwf a Hlt) as [l Hl].
  rewrite (Resolve_chain h _ _ name Hwf Hl).
  inversion Hl as [|? sc' l' Ha' Hl']; simplify_eq. simpl.
  destruct (Scope.Symbols sc !! name); [done|].
  destruct (Scope.Parent sc) as [p|].
  - by rewrite (Resolve_chain h _ _ name Hwf Hl').
  - by inversion Hl'.
Qed.

Lemma build_wf scope stmts h :
  heap_wf h → (scope < length h)%nat → heap_wf (buildInScope scope stmts h).1.
Proof. intros Hwf Hsc. eapply grows_wf; [done|]. by apply buildInScope_grows. Qed.

Lemma build_length scope stmts h :
  (scope < length h)%nat → (length h ≤ length (buildInScope scope stmts h).1)%nat.
Proof. intros Hsc. eapply grows_length. by apply buildInScope_grows. Qed.

(** A build leaves resolution from the older scopes as it was. *)
Lemma build_resolve_older scope stmts h b name :
  heap_wf h → (scope < length h)%nat → (b < scope)%nat →
  Resolve (buildInScope scope stmts h).1 (Some b) name = Resolve h (Some b) name.
Proof.
  intros Hwf Hsc Hb. pose proof (buildInScope_grows scope stmts h Hsc) as [Hl Hf _ _].
  apply Resolve_agree; [done|lia|done|]. intros c Hc. apply Hf; lia.
Qed.

(** A build leaves resolution of the names it does not declare as it
    was, from every scope that existed. *)
Lemma build_resolve_undeclared scope stmts h b name :
  heap_wf h → (scope < length h)%nat → (b < length h)%nat →
  name ∉ Identifier.Value <$> (stmts ≫= declared) →
  Resolve (buildInScope scope stmts h).1 (Some b) name = Resolve h (Some b) name.
Proof.
  intros Hwf Hsc Hb Hnd.
  pose proof (buildInScope_grows scope stmts h Hsc) as [Hl Hf Hs Hn].
  destruct (lookup_lt_is_Some_2 h scope Hsc) as [sc Hlook].
  destruct (Hs sc Hlook) as (sc' & Hlook' & Hpar & Hkeep & Hnew).
  apply Resolve_agree_name; [done|done|done|].
  intros c Hcb. destruct (decide (c = scope)) as [->|Hne].
  - rewrite Hlook, Hlook'. simpl. rewrite Hpar. do 2 f_equal.
    destruct (Scope.Symbols sc' !! name) as [sym|] eqn:E.
    + destruct (Hnew name sym E) as [Ho|(id & Hid & _ & _ & Hv)]; [done|].
      exfalso. apply Hnd. apply list_elem_of_fmap. by exists id.
    + destruct (Scope.Symbols sc !! name) as [sym|] eqn:E'; [|done].
      by rewrite (Hkeep name sym E') in E.
  - rewrite Hf; [done|lia|done].
Qed.

(** X3: a build in a scope always returns, and of the scopes that exist
    it changes no other one.  The scope keeps its parent and its
    bindings; older scopes resolve every name as before, and a name that
    the sequence itself does not declare resolves from every existing
    scope as before, whatever the nested blocks of the sequence declare.
    What resolves from the scope afterwards resolved so before or is a
    declaration of the sequence itself. *)
Theorem buildInScope_frame (scope : nat) (stmts : list Statement) (h : Heap) :
  heap_wf h →
  (scope < length h)%nat →
  (buildInScope scope stmts h).2 = Ok tt
  ∧ heap_wf (buildInScope scope stmts h).1
  ∧ (∀ a, (a < length h)%nat → a ≠ scope →
          (buildInScope scope stmts h).1 !! a = h !! a)
  ∧ (∀ b name, (b < scope)%nat →
       Resolve (buildInScope scope stmts h).1 (Some b) name = Resolve h (Some b) name)
  ∧ (∀ b name, (b < length h)%nat →
       name ∉ Identifier.Value <$> (stmts ≫= declared) →
       Resolve (buildInScope scope stmts h).1 (Some b) name = Resolve h (Some b) name)
  ∧ (∀ sc name sym, h !! scope = Some sc → Scope.Symbols sc !! name = Some sym →
       Resolve (buildInScope scope stmts h).1 (Some scope) name = Some sym)
  ∧ (∀ name sym,
       Resolve (buildInScope scope stmts h).1 (Some scope) name = Some sym →
       Resolve h (Some scope) name = Some sym
       ∨ declares (stmts ≫= declared) name sym).
Proof.
  intros Hwf Hsc.
  pose proof (buildInScope_grows scope stmts h Hsc) as Hg.
  pose proof (build_wf scope stmts h Hwf Hsc) as Hwf'.
  set (h' := (buildInScope scope stmts h).1) in *.
  destruct Hg as [Hl Hf Hs Hn].
  destruct (lookup_lt_is_Some_2 h scope Hsc) as [sc Hlook].
  destruct (Hs sc Hlook) as (sc' & Hlook' & Hpar & Hkeep & Hnew).
  split_and!; [done|done|done| | | |].
  - intros b name Hb. by apply build_resolve_older.
  - intros b name Hb Hnd. by apply build_resolve_undeclared.
  - intros sc0 name sym Hsc0 Hname. simplify_eq.
    rewrite (Resolve_unfold h' scope sc' name Hwf' Hlook').
    by rewrite (Hkeep name sym Hname).
  - intros name sym. rewrite (Resolve_unfold h' scope sc' name Hwf' Hlook').
    rewrite (Resolve_unfold h scope sc name Hwf Hlook). rewrite Hpar.
    destruct (Scope.Symbols sc' !! name) as [sym'|] eqn:E.
    + intros [= <-]. destruct (Hnew name sym' E) as [Ho|Hd]; [|by right].
      left. by rewrite Ho.
    + destruct (Scope.Symbols sc !! name) as [sym'|] eqn:E'.
      { by rewrite (Hkeep name sym' E') in E. }
      destruct (Scope.Parent sc) as [p|] eqn:Hp; [|done].
      unfold h'. rewrite build_resolve_older; [by left|done|done|].
      by apply (Hwf scope sc p).
Qed.

Lemma builtin_heap_wf : heap_wf [builtinScope].
Proof. intros [|a] sc p Ha Hp; simpl in Ha; simplify_eq. Qed.

Lemma buildInScope_frame_witness :
  Resolve (buildInScope 0 nestedProgram [builtinScope]).1 (Some 0%nat) "x"
  = Resolve [builtinScope] (Some 0%nat) "x".
Proof.
  destruct (buildInScope_frame 0 nestedProgram [builtinScope])
    as (_ & _ & _ & _ & Hother & _).
  - exact builtin_heap_wf.
  - simpl. lia.
  - apply Hother; [simpl; lia|].
    apply (bool_decide_unpack _). vm_compute. exact I.
Defined.

Lemma Define_binds scope kind id ty v h sc :
  h !! scope = Some sc →
  Scope.Symbols sc !! Identifier.Value id = None →
  ∃ sc1,
    Define scope (Symbol.mk kind (Identifier.Value id) (Some id) ty v None) h
    = (<[scope := sc1]> h, Ok tt)
    ∧ Scope.Parent sc1 = Scope.Parent sc
    ∧ bindsTo sc1 id (Symbol.mk kind (Identifier.Value id) (Some id) ty v None)
    ∧ (∀ n, n ≠ Identifier.Value id →
            Scope.Symbols sc1 !! n = Scope.Symbols sc !! n).
Proof.
  intros Hsc Hfree. unfold Define. rewrite Hsc. simpl. rewrite Hfree.
  eexists. split_and!; [done|done| |].
  - split_and!; [|done|done]. simpl. by rewrite lookup_insert_eq.
  - intros n Hn. simpl. by rewrite lookup_insert_ne.
Qed.

Lemma bindsTo_keep sc sc' id sym :
  (∀ n s, Scope.Symbols sc !! n = Some s → Scope.Symbols sc' !! n = Some s) →
  bindsTo sc id sym → bindsTo sc' id sym.
Proof. intros Hk (Hs & Hi & Hn). split_and!; auto. Qed.

Lemma binds_keep sc sc' id :
  (∀ n sym, Scope.Symbols sc !! n = Some sym → Scope.Symbols sc' !! n = Some sym) →
  binds sc id → binds sc' id.
Proof. intros Hk (sym & Hb). exists sym. by eapply bindsTo_keep. Qed.

(** A loop of [Define] over different names that the scope does not
    bind goes through and binds each of them. *)
Lemma range_Define_binds {A} scope (kind : SymbolKind) (key : A → Identifier.t)
  (ty : A → TypeNode) (v : A → Expression) l :
  NoDup (Identifier.Value ∘ key <$> l) →
  ∀ h sc,
    h !! scope = Some sc →
    (∀ x, x ∈ l → Scope.Symbols sc !! Identifier.Value (key x) = None) →
    ∃ h1 sc1,
      range (λ x, Define scope
                    (Symbol.mk kind (Identifier.Value (key x)) (Some (key x))
                       (ty x) (v x) None)) l h
      = (h1, Ok tt)
      ∧ h1 !! scope = Some sc1
      ∧ (∀ n sym, Scope.Symbols sc !! n = Some sym →
                  Scope.Symbols sc1 !! n = Some sym)
      ∧ (∀ x, x ∈ l →
              bindsTo sc1 (key x)
                (Symbol.mk kind (Identifier.Value (key x)) (Some (key x))
                   (ty x) (v x) None)).
Proof.
  induction l as [|x l IH]; intros Hnd h sc Hsc Hfree.
  - exists h, sc. split_and!; [done|done|done|].
    intros x Hx. by apply elem_of_nil in Hx.
  - rewrite fmap_cons in Hnd. apply NoDup_cons in Hnd as [Hx Hnd].
    assert (Scope.Symbols sc !! Identifier.Value (key x) = None) as Hfx
      by (apply Hfree, list_elem_of_here).
    destruct (Define_binds scope kind (key x) (ty x) (v x) h sc Hsc Hfx)
      as (sc1 & Hd & Hp & Hb & Hoth).
    assert (scope < length h)%nat as Hlt by (by eapply lookup_lt_Some).
    assert (∀ n sym, Scope.Symbols sc !! n = Some sym →
                     Scope.Symbols sc1 !! n = Some sym) as Hk1.
    { intros n sym Hn. rewrite Hoth; [done|]. intros ->. congruence. }
    destruct (IH Hnd (<[scope := sc1]> h) sc1) as (h2 & sc2 & Hr & Hsc2 & Hk2 & Hall).
    { by apply list_lookup_insert_eq. }
    { intros y Hy. rewrite Hoth.
      - apply Hfree. by apply list_elem_of_further.
      - intros Heq. apply Hx. apply list_elem_of_fmap. exists y. by split. }
    exists h2, sc2. split_and!; [|done|by auto|].
    + simpl. unfold bind. rewrite Hd. exact Hr.
    + intros y [->|Hy]%elem_of_cons; [|by apply Hall]. by eapply bindsTo_keep.
Qed.

(** The code of a function after the [Define] of its name: the function
    scope, the parameters and the body leave the enclosing scope alone. *)
Lemma func_block_grows scope params body h :
  (scope < length h)%nat →
  grows scope [] h
    ((fnScope <- NewScope (Some scope) ;;
      range (λ p, Define fnScope
                    (Symbol.mk SymParam (Identifier.Value (Param.Name p))
                       (Some (Param.Name p)) (Param.Type_ p) NilExpr None)) params ;;;
      recover (range (buildStmt fnScope) body)) h).1.
Proof.
  intros Hsc. eapply block_grows; [done|].
  apply bind_grows; [apply length_snoc_lt| |].
  - apply (range_Define_grows (length h) _ Param.Name); [apply length_snoc_lt|done].
  - intros [] h2 E2. rewrite recover_fst. apply range_build_grows.
    + apply Forall_forall. intros s _. apply buildStmt_grows.
    + pose proof (range_Define_length (length h)
                    (λ p, Symbol.mk SymParam (Identifier.Value (Param.Name p))
                            (Some (Param.Name p)) (Param.Type_ p) NilExpr None)
                    params (h ++ [Scope.mk (Some scope) ∅])) as Hl.
      assert (length h2 = length (h ++ [Scope.mk (Some scope) ∅])) as Hl2.
      { change h2 with (h2, @Ok unit ()).1. rewrite <- E2. apply Hl. }
      pose proof (length_snoc_lt h (Scope.mk (Some scope) ∅)). lia.
Qed.

Lemma func_block_ok scope params body h :
  NoDup ((λ p, Identifier.Value (Param.Name p)) <$> params) →
  ((fnScope <- NewScope (Some scope) ;;
    range (λ p, Define fnScope
                  (Symbol.mk SymParam (Identifier.Value (Param.Name p))
                     (Some (Param.Name p)) (Param.Type_ p) NilExpr None)) params ;;;
    recover (range (buildStmt fnScope) body)) h).2 = Ok tt.
Proof.
  intros Hnd. unfold bind at 1. unfold NewScope.
  destruct (range_Define_binds (length h) SymParam Param.Name Param.Type_
              (λ _, NilExpr) params Hnd (h ++ [Scope.mk (Some scope) ∅])
              (Scope.mk (Some scope) ∅)) as (h2 & sc2 & Hr & _).
  { rewrite lookup_app_r by lia. by rewrite Nat.sub_diag. }
  { intros x _. apply lookup_empty. }
  unfold bind. rewrite Hr. done.
Qed.

(** A statement that the builder can read, whose names differ and are
    not bound in the scope, is built without a panic and leaves each of
    its names bound to the symbol made for it. *)
Lemma buildStmt_defines scope s h sc :
  h !! scope = Some sc →
  buildable s →
  NoDup (Identifier.Value <$> declared s) →
  (∀ id, id ∈ declared s → Scope.Symbols sc !! Identifier.Value id = None) →
  ∃ sc1,
    (buildStmt scope s h).2 = Ok tt
    ∧ (buildStmt scope s h).1 !! scope = Some sc1
    ∧ (∀ id, id ∈ declared s → ∃ sym, bindsTo sc1 id sym ∧ recorded s id sym).
Proof.
  intros Hsc Hb Hnd Hfree.
  assert (scope < length h)%nat as Hlt by (by eapply lookup_lt_Some).
  assert (∀ kind id ty v,
            Scope.Symbols sc !! Identifier.Value id = None →
            ∃ sc1,
              (Define scope (Symbol.mk kind (Identifier.Value id) (Some id) ty v None)
                 h).2 = Ok tt
              ∧ (Define scope (Symbol.mk kind (Identifier.Value id) (Some id) ty v None)
                   h).1 !! scope = Some sc1
              ∧ (∀ id', id' ∈ [id] →
                   bindsTo sc1 id'
                     (Symbol.mk kind (Identifier.Value id') (Some id') ty v None)))
    as Hone.
  { intros kind id ty v Hf.
    destruct (Define_binds scope kind id ty v h sc Hsc Hf) as (sc1 & Hd & _ & Hbd & _).
    exists sc1. rewrite Hd. simpl. split_and!; [done|by apply list_lookup_insert_eq|].
    by intros id' ->%list_elem_of_singleton. }
  assert (∀ kind ty v l,
            NoDup (Identifier.Value <$> l) →
            (∀ id, id ∈ l → Scope.Symbols sc !! Identifier.Value id = None) →
            ∃ sc1,
              (range (λ name, Define scope
                                (Symbol.mk kind (Identifier.Value name) (Some name)
                                   ty v None)) l h).2 = Ok tt
              ∧ (range (λ name, Define scope
                                  (Symbol.mk kind (Identifier.Value name) (Some name)
                                     ty v None)) l h).1 !! scope = Some sc1
              ∧ (∀ id, id ∈ l →
                   bindsTo sc1 id
                     (Symbol.mk kind (Identifier.Value id) (Some id) ty v None)))
    as Hmany.
  { intros kind ty v l Hn Hf.
    destruct (range_Define_binds scope kind (λ x, x) (λ _, ty) (λ _, v) l Hn h sc Hsc Hf)
      as (h1 & sc1 & Hr & Hs1 & _ & Hall).
    exists sc1. rewrite Hr. done. }
  assert (∃ sc1, (buildStmt scope s h).1 !! scope = Some sc1) as [sc' Hsc'].
  { destruct (grows_scope _ _ _ _ (buildStmt_grows s scope h Hlt) sc Hsc)
      as (sc' & H1 & _). by exists sc'. }
  destruct s as [ | | name ty v | name v | name ty v | names ty v | names v
                | names ty v | | | | name params body | | base name ty
                | ? conseq alt | init ? post body | ? body | ];
    simpl in Hb, Hnd, Hfree;
    try (exists sc'; split_and!; [done|done|by intros id ?%elem_of_nil]).
  - destruct Hb as [n ->].
    destruct (Hone SymVar n ty v) as (sc1 & ? & ? & Hbd);
      [apply Hfree, list_elem_of_here|].
    exists sc1. split_and!; [done|done|]. intros id Hid. eexists. split; [by apply Hbd|done].
  - destruct Hb as [n ->].
    destruct (Hone SymVar n NilType v) as (sc1 & ? & ? & Hbd);
      [apply Hfree, list_elem_of_here|].
    exists sc1. split_and!; [done|done|]. intros id Hid. eexists. split; [by apply Hbd|done].
  - destruct Hb as [n ->].
    destruct (Hone SymConst n ty v) as (sc1 & ? & ? & Hbd);
      [apply Hfree, list_elem_of_here|].
    exists sc1. split_and!; [done|done|]. intros id Hid. eexists. split; [by apply Hbd|done].
  - destruct Hb as [l ->].
    destruct (Hmany SymVar ty v l Hnd Hfree) as (sc1 & ? & ? & Hbd).
    exists sc1. split_and!; [done|done|]. intros id Hid. eexists. split; [by apply Hbd|done].
  - destruct Hb as [l ->].
    destruct (Hmany SymVar NilType v l Hnd Hfree) as (sc1 & ? & ? & Hbd).
    exists sc1. split_and!; [done|done|]. intros id Hid. eexists. split; [by apply Hbd|done].
  - destruct Hb as [l ->].
    destruct (Hmany SymConst ty v l Hnd Hfree) as (sc1 & ? & ? & Hbd).
    exists sc1. split_and!; [done|done|]. intros id Hid. eexists. split; [by apply Hbd|done].
  - destruct Hb as [[n ->] Hps].
    assert (Scope.Symbols sc !! Identifier.Value n = None) as Hf
      by (apply Hfree, list_elem_of_here).
    destruct (Define_binds scope SymFunc n NilType NilExpr h sc Hsc Hf)
      as (sc1 & Hd & _ & Hbd & _).
    assert (buildStmt scope (FuncStatement (Some n) params body) h
            = (fnScope <- NewScope (Some scope) ;;
               range (λ p, Define fnScope
                             (Symbol.mk SymParam (Identifier.Value (Param.Name p))
                                (Some (Param.Name p)) (Param.Type_ p) NilExpr None))
                 params ;;;
               recover (range (buildStmt fnScope) body)) (<[scope := sc1]> h)) as ->.
    { simpl. unfold bind at 1. by rewrite Hd. }
    pose proof (func_block_grows scope params body (<[scope := sc1]> h)
                  ltac:(by rewrite length_insert)) as Hg.
    pose proof (func_block_ok scope params body (<[scope := sc1]> h) Hps) as Hok.
    destruct (grows_scope _ _ _ _ Hg sc1) as (sc2 & H1 & _ & Hk & _);
      [by apply list_lookup_insert_eq|].
    exists sc2. split_and!; [exact Hok|exact H1|].
    intros id ->%list_elem_of_singleton. eexists.
    split; [by eapply bindsTo_keep|done].
  - destruct Hb as [[n ->] [tn Htn]].
    assert (buildStmt scope (TypeStatement base (Some n) ty) h
            = Define scope (Symbol.mk SymUserType (Identifier.Value n) (Some n)
                              (IdentType base tn) NilExpr None) h) as ->.
    { simpl. unfold bind, lift. by rewrite Htn. }
    destruct (Hone SymUserType n (IdentType base tn) NilExpr) as (sc1 & ? & ? & Hbd);
      [apply Hfree, list_elem_of_here|].
    exists sc1. split_and!; [done|done|]. intros id Hid. eexists.
    split; [by apply Hbd|]. by exists tn.
  - exists sc'. split_and!; [|done|by intros id ?%elem_of_nil].
    simpl. unfold bind, NewScope, recover. simpl. by destruct alt.
  - exists sc'. split_and!; [|done|by intros id ?%elem_of_nil].
    simpl. unfold bind, NewScope, recover. simpl. by destruct init.
Qed.




(** A loop of [Define] panics when a name of the list is bound in the
    scope already, or occurs twice in the list. *)
Lemma range_Define_panics {A} scope (kind : SymbolKind) (key : A → Identifier.t)
  (ty : A → TypeNode) (v : A → Expression) l :
  ∀ h sc,
    h !! scope = Some sc →
    (∃ x, x ∈ l ∧ is_Some (Scope.Symbols sc !! Identifier.Value (key x)))
    ∨ ¬ NoDup (Identifier.Value ∘ key <$> l) →
    ∃ h1 x,
      x ∈ l
      ∧ range (λ x, Define scope
                      (Symbol.mk kind (Identifier.Value (key x)) (Some (key x))
                         (ty x) (v x) None)) l h
        = (h1, Panic ("redeclaration of " +:+ Identifier.Value (key x))).
Proof.
  induction l as [|x l IH]; intros h sc Hsc Hbad.
  - exfalso. destruct Hbad as [(x & Hx & _)|Hnd]; [by apply elem_of_nil in Hx|].
    apply Hnd. constructor.
  - simpl. unfold bind.
    destruct (Scope.Symbols sc !! Identifier.Value (key x)) as [old|] eqn:Hx.
    + exists h, x. split; [apply list_elem_of_here|].
      unfold Define. simpl. by rewrite Hsc, Hx.
    + destruct (Define_binds scope kind (key x) (ty x) (v x) h sc Hsc Hx)
        as (sc1 & Hd & _ & (Hb & _) & Hoth).
      rewrite Hd.
      destruct (IH (<[scope := sc1]> h) sc1) as (h1 & y & Hy & Hr).
      { apply list_lookup_insert_eq. by eapply lookup_lt_Some. }
      { destruct Hbad as [(y & [->|Hy]%elem_of_cons & Hbound)|Hnd].
        - rewrite Hx in Hbound. by destruct Hbound.
        - left. exists y. split; [done|].
          destruct (decide (Identifier.Value (key y) = Identifier.Value (key x)))
            as [->|Hne]; [by rewrite Hb|by rewrite Hoth].
        - rewrite fmap_cons, NoDup_cons in Hnd.
          destruct (decide ((Identifier.Value ∘ key) x ∈ Identifier.Value ∘ key <$> l))
            as [Hin|Hnin]; [|right; tauto].
          left. apply list_elem_of_fmap in Hin as (y & Hyx & Hy).
          exists y. split; [done|]. simpl in Hyx. by rewrite <- Hyx, Hb. }
      exists h1, y. split; [by apply list_elem_of_further|done].
Qed.

Lemma buildInScope_head_panics scope s rest h :
  (∃ msg, (buildStmt scope s h).2 = Panic msg) →
  buildInScope scope (s :: rest) h = ((buildStmt scope s h).1, Ok tt).
Proof.
  intros [msg Hp]. unfold buildInScope, recover.
  change (range (buildStmt scope) (s :: rest) h)
    with (bind (buildStmt scope s) (λ _, range (buildStmt scope) rest) h).
  unfold bind. destruct (buildStmt scope s h) as [h1 r]. simpl in Hp. by subst r.
Qed.

(** X5: a function whose name the scope does not bind yet is built
    without a panic exactly when its parameters have different names.
    Two parameters of the same name make the second [Define] panic in
    the loop of the enclosing sequence, outside the recovery of the
    function body: the statements after the function are skipped.  The
    name of the function is bound in either case. *)
Theorem function_parameters_distinct
  (scope : nat) (n : Identifier.t) (params : list Param.t) (body : list Statement)
  (h : Heap) (sc : Scope.t) :
  h !! scope = Some sc →
  Scope.Symbols sc !! Identifier.Value n = None →
  ((buildStmt scope (FuncStatement (Some n) params body) h).2 = Ok tt
   ↔ NoDup ((λ p, Identifier.Value (Param.Name p)) <$> params))
  ∧ (¬ NoDup ((λ p, Identifier.Value (Param.Name p)) <$> params) →
     ∃ p, p ∈ params
          ∧ (buildStmt scope (FuncStatement (Some n) params body) h).2
            = Panic ("redeclaration of " +:+ Identifier.Value (Param.Name p))
          ∧ ∀ rest,
              buildInScope scope (FuncStatement (Some n) params body :: rest) h
              = ((buildStmt scope (FuncStatement (Some n) params body) h).1, Ok tt))
  ∧ (∃ sc1, (buildStmt scope (FuncStatement (Some n) params body) h).1 !! scope
            = Some sc1 ∧ binds sc1 n).
Proof.
  intros Hsc Hfree.
  assert (scope < length h)%nat as Hlt by (by eapply lookup_lt_Some).
  destruct (Define_binds scope SymFunc n NilType NilExpr h sc Hsc Hfree)
    as (sc1 & Hd & _ & Hbd & _).
  assert (buildStmt scope (FuncStatement (Some n) params body) h
          = (fnScope <- NewScope (Some scope) ;;
             range (λ p, Define fnScope
                           (Symbol.mk SymParam (Identifier.Value (Param.Name p))
                              (Some (Param.Name p)) (Param.Type_ p) NilExpr None))
               params ;;;
             recover (range (buildStmt fnScope) body)) (<[scope := sc1]> h)) as Heq.
  { simpl. unfold bind at 1. by rewrite Hd. }
  assert (¬ NoDup ((λ p, Identifier.Value (Param.Name p)) <$> params) →
          ∃ p, p ∈ params
               ∧ (buildStmt scope (FuncStatement (Some n) params body) h).2
                 = Panic ("redeclaration of " +:+ Identifier.Value (Param.Name p)))
    as Hdup.
  { intros Hnd. rewrite Heq. unfold bind at 1. unfold NewScope.
    destruct (range_Define_panics (length (<[scope := sc1]> h)) SymParam Param.Name
                Param.Type_ (λ _, NilExpr) params
                (<[scope := sc1]> h ++ [Scope.mk (Some scope) ∅])
                (Scope.mk (Some scope) ∅)) as (h1 & p & Hp & Hr).
    { rewrite lookup_app_r by lia. by rewrite Nat.sub_diag. }
    { by right. }
    exists p. split; [done|]. unfold bind. by rewrite Hr. }
  split_and!.
  - split.
    + intros Hok.
      destruct (decide (NoDup ((λ p, Identifier.Value (Param.Name p)) <$> params)))
        as [?|Hnd]; [done|].
      destruct (Hdup Hnd) as (p & _ & Hp). congruence.
    + intros Hnd. rewrite Heq. by apply func_block_ok.
  - intros Hnd. destruct (Hdup Hnd) as (p & Hp & Hpanic).
    exists p. split_and!; [done|done|].
    intros rest. apply buildInScope_head_panics. by eexists.
  - rewrite Heq.
    pose proof (func_block_grows scope params body (<[scope := sc1]> h)
                  ltac:(by rewrite length_insert)) as Hg.
    destruct (grows_scope _ _ _ _ Hg sc1) as (sc2 & H1 & _ & Hk & _);
      [by apply list_lookup_insert_eq|].
    exists sc2. split; [done|]. eexists. by eapply bindsTo_keep.
Qed.

Lemma function_parameters_distinct_witness :
  (buildStmt 0
     (FuncStatement (Some (mkIdent "f" 1 6))
        [Param.mk (Token.mk "a" 1 8) (mkIdent "a" 1 8) intType;
         Param.mk (Token.mk "b" 1 15) (mkIdent "b" 1 15) intType] dupBody)
     [builtinScope]).2 = Ok tt.
Proof.
  destruct (function_parameters_distinct 0 (mkIdent "f" 1 6)
              [Param.mk (Token.mk "a" 1 8) (mkIdent "a" 1 8) intType;
               Param.mk (Token.mk "b" 1 15) (mkIdent "b" 1 15) intType]
              dupBody [builtinScope] builtinScope) as ([_ Hok] & _).
  - reflexivity.
  - reflexivity.
  - apply Hok. apply (bool_decide_unpack _). vm_compute. exact I.
Defined.

Lemma buildInScope_single_fst scope s h :
  (buildInScope scope [s] h).1 = (buildStmt scope s h).1.
Proof.
  unfold buildInScope, recover. simpl. unfold bind.
  by destruct (buildStmt scope s h) as [h1 [[]|msg]].
Qed.

(** One statement leaves resolution of the names it does not declare as
    it was. *)
Lemma stmt_resolve_undeclared scope s h b name :
  heap_wf h → (scope < length h)%nat → (b < length h)%nat →
  name ∉ Identifier.Value <$> declared s →
  Resolve (buildStmt scope s h).1 (Some b) name = Resolve h (Some b) name.
Proof.
  intros Hwf Hsc Hb Hnd. rewrite <- buildInScope_single_fst.
  apply build_resolve_undeclared; [done..|].
  by rewrite bind_cons, app_nil_r.
Qed.

Lemma For_unfold scope init cond post body h :
  (buildStmt scope (ForStatement init cond post body) h).1
  = (buildInScope (length h) body
       (buildInScope (length h) [init] (h ++ [Scope.mk (Some scope) ∅])).1).1.
Proof.
  simpl. unfold bind at 1. unfold NewScope. rewrite for_init_eq.
  unfold bind, buildInScope, recover. done.
Qed.

Lemma If_unfold scope cond conseq alt h :
  (buildStmt scope (IfStatement cond conseq alt) h).1
  = match alt with
    | None => (buildInScope (length h) conseq (h ++ [Scope.mk (Some scope) ∅])).1
    | Some stmts =>
        (buildInScope
           (length (buildInScope (length h) conseq
                      (h ++ [Scope.mk (Some scope) ∅])).1)
           stmts
           ((buildInScope (length h) conseq (h ++ [Scope.mk (Some scope) ∅])).1
            ++ [Scope.mk (Some scope) ∅])).1
    end.
Proof. simpl. unfold bind, NewScope, buildInScope, recover. by destruct alt. Qed.

(** X6: a [for] statement builds its initializer and its body in one
    fresh scope below the scope it stands in.  What the initializer
    declares resolves from that loop scope to its own symbol after the
    build, and the scope around the loop resolves every name as before. *)
Theorem for_initializer_in_loop_scope
  (scope : nat) (init : Statement) (cond : Expression) (post : Statement)
  (body : list Statement) (h : Heap) :
  heap_wf h →
  (scope < length h)%nat →
  buildable init →
  NoDup (Identifier.Value <$> declared init) →
  (∃ sc, (buildStmt scope (ForStatement init cond post body) h).1 !! length h = Some sc
         ∧ Scope.Parent sc = Some scope)
  ∧ (∀ id, id ∈ declared init →
       ∃ sym,
         Resolve (buildStmt scope (ForStatement init cond post body) h).1
           (Some (length h)) (Identifier.Value id) = Some sym
         ∧ Symbol.Ident sym = Some id)
  ∧ (∀ name,
       Resolve (buildStmt scope (ForStatement init cond post body) h).1
         (Some scope) name
       = Resolve h (Some scope) name).
Proof.
  intros Hwf Hsc Hb Hnd.
  set (new := Scope.mk (Some scope) ∅).
  assert ((h ++ [new]) !! length h = Some new) as Hnew
    by (rewrite lookup_app_r by lia; by rewrite Nat.sub_diag).
  pose proof (length_snoc_lt h new) as Hlt.
  destruct (buildStmt_defines (length h) init (h ++ [new]) new Hnew Hb Hnd)
    as (sc1 & _ & Hsc1 & Hbind); [intros; apply lookup_empty|].
  rewrite <- buildInScope_single_fst in Hsc1.
  set (h1 := (buildInScope (length h) [init] (h ++ [new])).1) in *.
  assert (length h < length h1)%nat as Hlt1 by (by eapply lookup_lt_Some).
  pose proof (buildInScope_grows (length h) [init] (h ++ [new]) Hlt) as Hg1.
  destruct (grows_scope _ _ _ _ Hg1 new Hnew) as (sc1' & Hsc1' & Hp1 & _).
  fold h1 in Hsc1'. simplify_eq.
  pose proof (buildInScope_grows (length h) body h1 Hlt1) as Hg2.
  destruct (grows_scope _ _ _ _ Hg2 sc1 Hsc1) as (sc2 & Hsc2 & Hp2 & Hkeep & _).
  rewrite For_unfold. fold new h1.
  assert (heap_wf (h ++ [new])) as Hwf0 by (by apply NewScope_wf).
  assert (heap_wf h1) as Hwf1 by (by apply build_wf).
  assert (heap_wf (buildInScope (length h) body h1).1) as Hwf2
    by (by apply build_wf).
  split_and!.
  - exists sc2. split; [done|]. by rewrite Hp2, Hp1.
  - intros id Hid. destruct (Hbind id Hid) as (sym & (Hs & Hi & _) & _).
    exists sym. split; [|done].
    rewrite (Resolve_unfold _ _ sc2 _ Hwf2 Hsc2). by rewrite (Hkeep _ _ Hs).
  - intros name.
    rewrite build_resolve_older; [|done|done|done].
    unfold h1. rewrite build_resolve_older; [|done|done|done].
    by apply NewScope_resolve_old.
Qed.

Lemma for_initializer_in_loop_scope_witness :
  ∃ sym,
    Resolve (buildStmt 0
               (ForStatement (VarStatement (Some (mkIdent "i" 1 10)) intType NilExpr)
                  NilExpr NilStmt dupBody) [builtinScope]).1
      (Some 1%nat) "i" = Some sym
    ∧ Symbol.Ident sym = Some (mkIdent "i" 1 10).
Proof.
  destruct (for_initializer_in_loop_scope 0
              (VarStatement (Some (mkIdent "i" 1 10)) intType NilExpr)
              NilExpr NilStmt dupBody [builtinScope]) as (_ & Hinit & _).
  - exact builtin_heap_wf.
  - simpl. lia.
  - by eexists.
  - simpl. repeat constructor. intros H. inversion H.
  - apply (Hinit (mkIdent "i" 1 10)). apply list_elem_of_here.
Defined.

(** X7: the two branches of an [if] are built in two fresh scopes below
    the scope of the statement.  After the build a name that a branch
    does not declare itself resolves from the scope of that branch as it
    resolved from the enclosing scope before, whatever the other branch
    declares; the enclosing scope resolves every name as before. *)
Theorem if_branches_isolated
  (scope : nat) (cond : Expression) (conseq alt : list Statement) (h : Heap) :
  heap_wf h →
  (scope < length h)%nat →
  let thenScope := length h in
  let elseScope :=
    length (buildInScope thenScope conseq (h ++ [Scope.mk (Some scope) ∅])).1 in
  let h' := (buildStmt scope (IfStatement cond conseq (Some alt)) h).1 in
  (∀ name, name ∉ Identifier.Value <$> (conseq ≫= declared) →
           Resolve h' (Some thenScope) name = Resolve h (Some scope) name)
  ∧ (∀ name, name ∉ Identifier.Value <$> (alt ≫= declared) →
             Resolve h' (Some elseScope) name = Resolve h (Some scope) name)
  ∧ (∀ name, Resolve h' (Some scope) name = Resolve h (Some scope) name).
Proof.
  intros Hwf Hsc. cbv zeta. rewrite If_unfold.
  set (hT := (buildInScope (length h) conseq (h ++ [Scope.mk (Some scope) ∅])).1).
  pose proof (length_snoc_lt h (Scope.mk (Some scope) ∅)) as Hlt.
  assert (heap_wf (h ++ [Scope.mk (Some scope) ∅])) as Hwf0 by (by apply NewScope_wf).
  assert (heap_wf hT) as HwfT by (by apply build_wf).
  assert (length (h ++ [Scope.mk (Some scope) ∅]) ≤ length hT)%nat as HlT
    by (by apply build_length).
  assert (scope < length hT)%nat as HscT by lia.
  assert (length h < length hT)%nat as HthT by lia.
  assert (heap_wf (hT ++ [Scope.mk (Some scope) ∅])) as Hwf1
    by (by apply NewScope_wf).
  pose proof (length_snoc_lt hT (Scope.mk (Some scope) ∅)) as Hlt1.
  split_and!.
  - intros name Hnd.
    rewrite build_resolve_older; [|exact Hwf1|exact Hlt1|exact HthT].
    rewrite NewScope_resolve_old; [|exact HwfT|exact HthT].
    unfold hT.
    rewrite build_resolve_undeclared; [|exact Hwf0|exact Hlt|exact Hlt|exact Hnd].
    by apply NewScope_resolve_new.
  - intros name Hnd.
    rewrite build_resolve_undeclared; [|exact Hwf1|exact Hlt1|exact Hlt1|exact Hnd].
    rewrite NewScope_resolve_new; [|exact HwfT|exact HscT].
    unfold hT. rewrite build_resolve_older; [|exact Hwf0|exact Hlt|exact Hsc].
    by apply NewScope_resolve_old.
  - intros name.
    rewrite build_resolve_older; [|exact Hwf1|exact Hlt1|exact HscT].
    rewrite NewScope_resolve_old; [|exact HwfT|exact HscT].
    unfold hT. rewrite build_resolve_older; [|exact Hwf0|exact Hlt|exact Hsc].
    by apply NewScope_resolve_old.
Qed.

Lemma if_branches_isolated_witness :
  Resolve (buildStmt 0
             (IfStatement NilExpr
                [VarStatement (Some (mkIdent "t" 1 16)) intType NilExpr]
                (Some [VarStatement (Some (mkIdent "e" 2 16)) intType NilExpr]))
             [builtinScope]).1
    (Some 2%nat) "t"
  = Resolve [builtinScope] (Some 0%nat) "t".
Proof.
  destruct (if_branches_isolated 0 NilExpr
              [VarStatement (Some (mkIdent "t" 1 16)) intType NilExpr]
              [VarStatement (Some (mkIdent "e" 2 16)) intType NilExpr]
              [builtinScope]) as (_ & Helse & _).
  - exact builtin_heap_wf.
  - simpl. lia.
  - apply (Helse "t"). apply (bool_decide_unpack _). vm_compute. exact I.
Defined.

(** * Further properties of the position resolver *)

Lemma wrap_in_int z : in_int (wrap z).
Proof.
  unfold in_int, wrap, int_min, int_max.
  pose proof (Z.mod_pos_bound (z + 2 ^ 63) (2 ^ 64) ltac:(lia)). lia.
Qed.

(** X8: a token contains one position for each byte of its text: with
    the stored line and column in the range of [int], the position is
    inside the token exactly when it is the position of one of the bytes,
    counted back from the stored column.  A token with an empty text
    contains no position at all. *)
Theorem token_positions (tok : Token.t) (pos : Position.t) :
  (Token.Literal tok = EmptyString → posInsideTok tok pos = false)
  ∧ (1 <= Token.Line tok <= int_max →
     len (Token.Literal tok) + 1 <= Token.Column tok <= int_max →
     (posInsideTok tok pos = true
      ↔ ∃ k, 0 <= k < len (Token.Literal tok) ∧ pos = byteOf tok k)).
Proof.
  split.
  - intros Hempty. unfold posInsideTok. rewrite Hempty.
    change (len EmptyString) with 0.
    assert (int_sub (int_sub (Token.Column tok) 1) 0 = int_sub (Token.Column tok) 1)
      as ->.
    { unfold int_sub at 1. rewrite Z.sub_0_r. apply wrap_small, wrap_in_int. }
    destruct (negb _); [done|]. apply andb_false_iff.
    destruct (Z.leb_spec (int_sub (Token.Column tok) 1) (Position.Character pos));
      [right; apply Z.ltb_ge; lia|by left].
  - intros HL HC. rewrite posInsideTok_span by done. unfold byteOf.
    destruct pos as [line ch]. simpl. split.
    + intros [-> Hch].
      exists (ch - (Token.Column tok - 1 - len (Token.Literal tok))).
      split; [lia|]. f_equal. lia.
    + intros (k & Hk & [= -> ->]). lia.
Qed.

Lemma token_positions_witness :
  posInsideTok (Token.mk "count" 2 10) (Position.mk 1 6) = true.
Proof.
  destruct (token_positions (Token.mk "count" 2 10) (Position.mk 1 6)) as [_ Hin].
  apply Hin.
  - vm_compute. split; discriminate.
  - vm_compute. split; discriminate.
  - exists 2. split; [vm_compute; split; [discriminate|reflexivity]|reflexivity].
Defined.

(** X9: without a type statement in the tree, the identifier that a
    position query returns has a token that contains the position; with
    the token's coordinates in the range of [int], the position is on the
    token's line and among its columns. *)
Theorem lookup_result_contains_position
  (statements : list Statement) (pos : Position.t) (id : Identifier.t) :
  forallb typeFree statements = true →
  findIdentAt statements pos = Ok (Some id) →
  posInsideTok (NodeBase.Token (Identifier.NodeBase id)) pos = true
  ∧ (1 <= Token.Line (NodeBase.Token (Identifier.NodeBase id)) <= int_max →
     len (Token.Literal (NodeBase.Token (Identifier.NodeBase id))) + 1
     <= Token.Column (NodeBase.Token (Identifier.NodeBase id)) <= int_max →
     Position.Line pos = Token.Line (NodeBase.Token (Identifier.NodeBase id)) - 1
     ∧ Token.Column (NodeBase.Token (Identifier.NodeBase id)) - 1
       - len (Token.Literal (NodeBase.Token (Identifier.NodeBase id)))
       <= Position.Character pos
       < Token.Column (NodeBase.Token (Identifier.NodeBase id)) - 1).
Proof.
  intros Hfree Hfind.
  assert (inside pos id) as Hin.
  { apply firstIdent_Some in Hfind as (s & Hs & Hw).
    apply forallb_Forall_true in Hfree. rewrite Forall_forall in Hfree.
    eapply walkForIdent_Some; [by apply Hfree|done]. }
  split; [exact Hin|]. intros HL HC. by apply posInsideTok_span.
Qed.

Lemma lookup_result_contains_position_witness :
  posInsideTok (Token.mk "count" 3 6) (Position.mk 2 0) = true.
Proof.
  destruct (lookup_result_contains_position countProgram (Position.mk 2 0)
              (mkIdent "count" 3 6)) as [Hin _].
  - reflexivity.
  - reflexivity.
  - exact Hin.
Defined.

Lemma firstIdent_skip {A} (walk : A → found) pre rest :
  (∀ x, x ∈ pre → walk x = Ok None) →
  firstIdent walk (pre ++ rest) = firstIdent walk rest.
Proof.
  induction pre as [|x pre IH]; intros Hpre; [done|].
  simpl. rewrite (Hpre x) by apply list_elem_of_here. simpl.
  apply IH. intros y Hy. apply Hpre. by apply list_elem_of_further.
Qed.

(** X10: a type statement answers every position.  When the statements
    before it yield nothing at a position, the query returns an
    identifier made for the type statement, with the node base of the
    statement, whatever the position is and whatever follows. *)
Theorem type_statement_answers_every_position
  (pre post : list Statement) (base : NodeBase.t) (name : option Identifier.t)
  (t : TypeNode) (pos : Position.t) :
  (∀ s, s ∈ pre → walkForIdent pos s = Ok None) →
  ∃ text,
    findIdentAt (pre ++ TypeStatement base name t :: post) pos
    = Ok (Some (Identifier.mk base text))
    ∧ (∀ b typeName, t = IdentType b typeName → text = typeName).
Proof.
  intros Hpre. unfold findIdentAt. rewrite firstIdent_skip by done. simpl.
  destruct t as [|b typeName|elem|fields|]; eexists; (split; [done|]);
    intros b' n' Heq; by simplify_eq.
Qed.

Lemma type_statement_answers_every_position_witness :
  ∃ text,
    findIdentAt ([VarStatement (Some (mkIdent "a" 1 6)) intType NilExpr]
                 ++ TypeStatement typeBase (Some (mkIdent "T" 2 7)) intType
                 :: [VarStatement (Some (mkIdent "x" 3 6)) intType NilExpr])
      (Position.mk 2 4)
    = Ok (Some (Identifier.mk typeBase text)).
Proof.
  destruct (type_statement_answers_every_position
              [VarStatement (Some (mkIdent "a" 1 6)) intType NilExpr]
              [VarStatement (Some (mkIdent "x" 3 6)) intType NilExpr]
              typeBase (Some (mkIdent "T" 2 7)) intType (Position.mk 2 4))
    as (text & Hfind & _).
  - intros s Hs. apply list_elem_of_singleton in Hs. subst s. reflexivity.
  - exists text. exact Hfind.
Defined.










(** * Further properties of the type inference *)

Lemma structEq_sym a b : structEq a b → structEq b a.
Proof. induction 1; by constructor. Qed.

Lemma structEq_trans a b c : structEq a b → structEq b c → structEq a c.
Proof.
  intros Hab. revert c. induction Hab as [b1 b2 n|e1 e2 _ IH]; intros c Hbc;
    inversion Hbc; subst; constructor. by apply IH.
Qed.

Lemma structEq_refl_plain a : structEq a a ↔ plainType a = true.
Proof.
  induction a as [|b n|e IH|fields|]; simpl; split; try done;
    try (by inversion 1).
  - intros _. constructor.
  - inversion 1; subst. by apply IH.
  - intros H. constructor. by apply IH.
Qed.

Lemma structEq_text a b : structEq a b → typeNodeToString a = typeNodeToString b.
Proof. induction 1 as [| e1 e2 _ IH]; simpl; [done|by rewrite IH]. Qed.

Lemma sameTypeNode_sym a b : sameTypeNode a b = sameTypeNode b a.
Proof.
  destruct (sameTypeNode a b) eqn:E, (sameTypeNode b a) eqn:E'; try done.
  - apply sameTypeNode_structEq, structEq_sym, sameTypeNode_structEq in E. congruence.
  - apply sameTypeNode_structEq, structEq_sym, sameTypeNode_structEq in E'. congruence.
Qed.

(** X12: the comparison of types is symmetric and transitive, a type is
    equal to itself exactly when it is made of identifier types and array
    types only, and two types that compare equal are rendered by the same
    text; types that differ can be rendered alike. *)
Theorem sameTypeNode_partial_equivalence :
  (∀ a b, sameTypeNode a b = sameTypeNode b a)
  ∧ (∀ a b c, sameTypeNode a b = true → sameTypeNode b c = true →
              sameTypeNode a c = true)
  ∧ (∀ a, sameTypeNode a a = plainType a)
  ∧ (∀ a b, sameTypeNode a b = true → plainType a = true ∧ plainType b = true)
  ∧ (∀ a b, sameTypeNode a b = true → typeNodeToString a = typeNodeToString b)
  ∧ (sameTypeNode (IdentType zeroBase "[]int") (ArrayType intType) = false
     ∧ typeNodeToString (IdentType zeroBase "[]int")
       = typeNodeToString (ArrayType intType)).
Proof.
  split_and!.
  - apply sameTypeNode_sym.
  - intros a b c Hab Hbc. apply sameTypeNode_structEq.
    apply sameTypeNode_structEq in Hab, Hbc. by eapply structEq_trans.
  - intros a. destruct (plainType a) eqn:E.
    + by apply sameTypeNode_structEq, structEq_refl_plain.
    + apply not_true_is_false. rewrite sameTypeNode_structEq, structEq_refl_plain.
      congruence.
  - intros a b Hab. apply sameTypeNode_structEq in Hab. split.
    + apply structEq_refl_plain. eapply structEq_trans; [done|by apply structEq_sym].
    + apply structEq_refl_plain. eapply structEq_trans; [by apply structEq_sym|done].
  - intros a b Hab. by apply structEq_text, sameTypeNode_structEq.
  - reflexivity.
  - reflexivity.
Qed.

Lemma sameTypeNode_partial_equivalence_witness :
  sameTypeNode (ArrayType intType) (ArrayType (IdentType typeBase "int")) = true
  ∧ typeNodeToString (ArrayType intType)
    = typeNodeToString (ArrayType (IdentType typeBase "int")).
Proof.
  destruct sameTypeNode_partial_equivalence as (_ & _ & _ & _ & Htext & _).
  split; [reflexivity|]. apply Htext. reflexivity.
Defined.

Lemma forallb_ext_Forall {A} (f g : A → bool) l :
  Forall (λ x, f x = g x) l → forallb f l = forallb g l.
Proof. induction 1 as [|x l Hx _ IH]; simpl; [done|]. by rewrite Hx, IH. Qed.

(** X13: the inference reads of the scope only the types of the symbols
    that the names resolve to: in two scopes, of one heap or of two,
    that give every name the same type or both none, every expression
    has the same type. *)
Theorem inference_reads_types_only
  (h h' : Heap) (s s' : option nat) (e : Expression) :
  (∀ name, Symbol.Type_ <$> Resolve h s name = Symbol.Type_ <$> Resolve h' s' name) →
  inferExprType h s e = inferExprType h' s' e.
Proof.
  intros Henv. induction e as [e IH] using Expression_nested_ind.
  destruct e as [ | n | | | | | elements | | | l ? r | ? r | | | | ];
    simpl exprChildren in IH; try reflexivity.
  - simpl. pose proof (Henv (Identifier.Value n)) as Hn.
    destruct (Resolve h s (Identifier.Value n)), (Resolve h' s' (Identifier.Value n));
      simpl in Hn; by simplify_eq.
  - destruct elements as [|e0 rest]; [done|].
    rewrite !inferExprType_array_cons.
    inversion IH as [|? ? H0 Hrest]; subst. rewrite H0.
    destruct (isNil (inferExprType h' s' e0)); [done|].
    rewrite (forallb_ext_Forall _
               (λ el, negb (isNil (inferExprType h' s' el)
                            || negb (sameTypeNode (inferExprType h' s' e0)
                                       (inferExprType h' s' el)))) rest); [done|].
    eapply Forall_impl; [exact Hrest|]. intros el Hel. simpl in Hel. by rewrite Hel.
  - inversion IH as [|? ? H1 IH']; subst. inversion IH' as [|? ? H2 _]; subst.
    simpl. by rewrite H1, H2.
  - inversion IH as [|? ? H1 _]; subst. simpl. done.
Qed.

Lemma inference_reads_types_only_witness :
  inferExprType demoHeap (Some 1%nat)
    (ArrayLiteral [Ident (mkIdent "x" 1 2); IntLiteral 1])
  = inferExprType demoHeap (Some 0%nat)
      (ArrayLiteral [Ident (mkIdent "x" 1 2); IntLiteral 1]).
Proof.
  apply inference_reads_types_only. intros name.
  destruct (decide (name = "x")) as [->|Hne]; [reflexivity|].
  unfold Resolve, demoHeap. simpl.
  rewrite !lookup_singleton_ne by done. reflexivity.
Defined.

(** X14: the order of the operands of a binary expression, and its
    operator, do not change how the inferred type is rendered: the two
    orders give the unknown type together, and otherwise types that
    compare equal. *)
Theorem infix_order_irrelevant
  (h : Heap) (scope : option nat) (l r : Expression) (op op' : string) :
  typeNodeToString (inferExprType h scope (InfixExpression l op r))
  = typeNodeToString (inferExprType h scope (InfixExpression r op' l))
  ∧ (inferExprType h scope (InfixExpression l op r) = NilType
     ↔ inferExprType h scope (InfixExpression r op' l) = NilType)
  ∧ (inferExprType h scope (InfixExpression l op r) ≠ NilType →
     sameTypeNode (inferExprType h scope (InfixExpression l op r))
       (inferExprType h scope (InfixExpression r op' l)) = true).
Proof.
  simpl. set (L := inferExprType h scope l). set (R := inferExprType h scope r).
  rewrite (sameTypeNode_sym R L), (orb_comm (isNil R) (isNil L)).
  rewrite (orb_comm (isIdent R "int" && isIdent L "float")).
  rewrite (andb_comm (isIdent R "float")), (andb_comm (isIdent R "int")).
  destruct (isNil L || isNil R) eqn:Hnil; [by split_and!|].
  apply orb_false_iff in Hnil as [HL HR].
  destruct (sameTypeNode L R) eqn:Hsame.
  - apply isNil_false in HL, HR. split_and!; [|done|done].
    by apply structEq_text, sameTypeNode_structEq.
  - destruct (isIdent L "int" && isIdent R "float"
              || isIdent L "float" && isIdent R "int"); by split_and!.
Qed.

Lemma infix_order_irrelevant_witness :
  sameTypeNode
    (inferExprType [builtinScope] (Some 0%nat)
       (InfixExpression (IntLiteral 1) "+" (FloatLiteral "2.0")))
    (inferExprType [builtinScope] (Some 0%nat)
       (InfixExpression (FloatLiteral "2.0") "-" (IntLiteral 1))) = true.
Proof.
  destruct (infix_order_irrelevant [builtinScope] (Some 0%nat)
              (IntLiteral 1) (FloatLiteral "2.0") "+" "-") as (_ & _ & Hsame).
  apply Hsame. vm_compute. discriminate.
Defined.

(** * Further properties of the request handling *)

Lemma handleHover_written ParseProgram documents id params written :
  handleHover ParseProgram documents id params = Ok written →
  ∃ r, written = sendResponse id r.
Proof.
  unfold handleHover.
  destruct (String.eqb _ _); [intros [= <-]; by eexists|].
  destruct (BuildSymbols _) as [h [root|msg]]; simpl; [|done].
  destruct (findIdentAt _ _) as [[ident|]|msg]; simpl;
    [|intros [= <-]; by eexists|done].
  destruct (Resolve _ _ _); intros [= <-]; by eexists.
Qed.

Lemma handleDefinition_written ParseProgram documents id params written :
  handleDefinition ParseProgram documents id params = Ok written →
  written = [] ∨ ∃ r, written = sendResponse id r.
Proof.
  unfold handleDefinition.
  destruct (String.eqb _ _); [intros [= <-]; right; by eexists|].
  destruct (BuildSymbols _) as [h [root|msg]]; simpl; [|done].
  destruct (findIdentAt _ _) as [[ident|]|msg]; simpl;
    [|intros [= <-]; right; by eexists|done].
  destruct (Resolve _ _ _) as [sym|]; [|intros [= <-]; by left].
  destruct (Symbol.Ident sym) as [decl|]; [|done].
  destruct (Pos decl). intros [= <-]. right. by eexists.
Qed.

Lemma sendResponse_ids id r :
  (∀ w i, w ∈ Plain <$> sendResponse id r → responseId w = Some i → id = Some i)
  ∧ (length (omap responseId (Plain <$> sendResponse id r)) ≤ 1)%nat.
Proof.
  destruct id as [j|]; simpl; split; try lia.
  - intros w i ->%list_elem_of_singleton. simpl. congruence.
  - intros w i Hw. by apply elem_of_nil in Hw.
Qed.

(** X15: whatever one message makes the server write, at most one
    response is among it, and a response carries the identifier of the
    request: a message without identifier is never answered. *)
Theorem responses_answer_the_request
  (ParseProgram : string → list Statement) (Errors : string → list error)
  (ErrorText : ParseError.t → string)
  (decodeDidOpen : string → DidOpenParams.t)
  (decodeDidChange : string → DidChangeParams.t)
  (decodeDefinition decodeHover : string → QueryParams.t)
  (documents documents' : gmap string string) (req : Request.t)
  (written : list Written) :
  handleMessage ParseProgram Errors ErrorText decodeDidOpen decodeDidChange
    decodeDefinition decodeHover documents req
  = Continue documents' written →
  (∀ w i, w ∈ written → responseId w = Some i → Request.ID req = Some i)
  ∧ (length (omap responseId written) ≤ 1)%nat
  ∧ (Request.ID req = None → ∀ w, w ∈ written → responseId w = None).
Proof.
  intros Hm.
  assert ((∀ w i, w ∈ written → responseId w = Some i → Request.ID req = Some i)
          ∧ (length (omap responseId written) ≤ 1)%nat) as [Hid Hone].
  { unfold handleMessage in Hm.
    repeat match type of Hm with
           | (if ?b then _ else _) = _ => destruct b
           end.
    - injection Hm as _ <-. unfold handleIntialize.
      destruct (Request.ID req) as [j|]; simpl; split; try lia.
      + intros w i ->%list_elem_of_singleton. simpl. congruence.
      + intros w i Hw. by apply elem_of_nil in Hw.
    - injection Hm as _ <-. split; [|simpl; lia].
      intros w i Hw. by apply elem_of_nil in Hw.
    - unfold handleDidOpen in Hm. injection Hm as _ <-. split; [|simpl; lia].
      intros w i ->%list_elem_of_singleton. done.
    - unfold handleDidChange in Hm.
      destruct (DidChangeParams.ContentChanges _); [done|].
      injection Hm as _ <-. split; [|simpl; lia].
      intros w i ->%list_elem_of_singleton. done.
    - unfold answer in Hm.
      destruct (handleDefinition _ _ _ _) as [msgs|msg] eqn:E; [|done].
      injection Hm as _ <-.
      destruct (handleDefinition_written _ _ _ _ _ E) as [->|[r ->]].
      + split; [|simpl; lia]. intros w i Hw. by apply elem_of_nil in Hw.
      + apply sendResponse_ids.
    - unfold answer in Hm.
      destruct (handleHover _ _ _ _) as [msgs|msg] eqn:E; [|done].
      injection Hm as _ <-.
      destruct (handleHover_written _ _ _ _ _ E) as [r ->].
      apply sendResponse_ids.
    - injection Hm as _ <-. apply sendResponse_ids.
    - done.
    - injection Hm as _ <-. split; [|simpl; lia].
      intros w i Hw. by apply elem_of_nil in Hw. }
  split_and!; [done|done|].
  intros Hnone w Hw. destruct (responseId w) as [i|] eqn:E; [|done].
  specialize (Hid w i Hw E). congruence.
Qed.

Lemma responses_answer_the_request_witness :
  Request.ID (Request.mk (Some 7) "shutdown" "null") = Some 7
  ∧ (length (omap responseId [Plain (ResponseMsg (Response.mk "2.0" 7 Null))]) ≤ 1)%nat.
Proof.
  destruct (responses_answer_the_request (λ _, undeclaredProgram) (λ _, [])
              ParseError.Detail (λ _, DidOpenParams.mk "u" "t")
              (λ _, DidChangeParams.mk "u" []) (λ _, queryAt 0 0) (λ _, queryAt 0 0)
              (oneDocument "src") (oneDocument "src")
              (Request.mk (Some 7) "shutdown" "null")
              [Plain (ResponseMsg (Response.mk "2.0" 7 Null))]) as (Hid & Hone & _).
  - reflexivity.
  - split; [|exact Hone].
    apply (Hid (Plain (ResponseMsg (Response.mk "2.0" 7 Null))) 7).
    + apply list_elem_of_here.
    + reflexivity.
Defined.

Lemma query_reads_one_document ParseProgram documents documents' id params :
  documents !! QueryParams.URI params = documents' !! QueryParams.URI params →
  handleHover ParseProgram documents id params
  = handleHover ParseProgram documents' id params
  ∧ handleDefinition ParseProgram documents id params
    = handleDefinition ParseProgram documents' id params.
Proof. intros Heq. unfold handleHover, handleDefinition. by rewrite Heq. Qed.

(** X16: the store of documents changes on an open and on a change
    notification only.  An open stores the text under its URI, a change
    stores the first of its content changes and panics when it has none;
    both leave every other URI as it was and write the diagnostics of the
    new text.  A query that follows is answered from that text alone, and
    a query for another URI as before. *)
Theorem document_store_updates
  (ParseProgram : string → list Statement) (Errors : string → list error)
  (ErrorText : ParseError.t → string)
  (decodeDidOpen : string → DidOpenParams.t)
  (decodeDidChange : string → DidChangeParams.t)
  (decodeDefinition decodeHover : string → QueryParams.t)
  (documents : gmap string string) (req : Request.t) :
  let step :=
    handleMessage ParseProgram Errors ErrorText decodeDidOpen decodeDidChange
      decodeDefinition decodeHover documents req in
  (Request.Method req ≠ "textDocument/didOpen" →
   Request.Method req ≠ "textDocument/didChange" →
   ∀ documents' written, step = Continue documents' written → documents' = documents)
  ∧ (Request.Method req = "textDocument/didOpen" →
     step
     = Continue
         (<[DidOpenParams.URI (decodeDidOpen (Request.Params req))
            := DidOpenParams.Text (decodeDidOpen (Request.Params req))]> documents)
         [diagnosticsFor Errors ErrorText
            (DidOpenParams.URI (decodeDidOpen (Request.Params req)))
            (DidOpenParams.Text (decodeDidOpen (Request.Params req)))])
  ∧ (Request.Method req = "textDocument/didChange" →
     step
     = match DidChangeParams.ContentChanges (decodeDidChange (Request.Params req)) with
       | [] => Crash index_out_of_range
       | text :: _ =>
           Continue
             (<[DidChangeParams.URI (decodeDidChange (Request.Params req)) := text]>
                documents)
             [diagnosticsFor Errors ErrorText
                (DidChangeParams.URI (decodeDidChange (Request.Params req))) text]
       end)
  ∧ (∀ uri text id pos,
       handleHover ParseProgram (<[uri := text]> documents) id (QueryParams.mk uri pos)
       = handleHover ParseProgram {[uri := text]} id (QueryParams.mk uri pos)
       ∧ handleDefinition ParseProgram (<[uri := text]> documents) id
           (QueryParams.mk uri pos)
         = handleDefinition ParseProgram {[uri := text]} id (QueryParams.mk uri pos))
  ∧ (∀ uri text other id pos,
       other ≠ uri →
       handleHover ParseProgram (<[uri := text]> documents) id
         (QueryParams.mk other pos)
       = handleHover ParseProgram documents id (QueryParams.mk other pos)
       ∧ handleDefinition ParseProgram (<[uri := text]> documents) id
           (QueryParams.mk other pos)
         = handleDefinition ParseProgram documents id (QueryParams.mk other pos)).
Proof.
  intros step. subst step. split_and!.
  - intros Hopen Hchange documents' written. unfold handleMessage.
    apply String.eqb_neq in Hopen, Hchange. rewrite Hopen, Hchange.
    repeat match goal with
           | |- (if ?b then _ else _) = _ → _ => destruct b
           end; try (by intros [= <- _]); try done.
    + unfold answer. destruct (handleDefinition _ _ _ _); [by intros [= <- _]|done].
    + unfold answer. destruct (handleHover _ _ _ _); [by intros [= <- _]|done].
  - intros Hm. unfold handleMessage. rewrite Hm. done.
  - intros Hm. unfold handleMessage. rewrite Hm. simpl. unfold handleDidChange.
    by destruct (DidChangeParams.ContentChanges _).
  - intros uri text id pos. apply query_reads_one_document. simpl.
    by rewrite lookup_insert_eq, lookup_singleton_eq.
  - intros uri text other id pos Hne. apply query_reads_one_document. simpl.
    by rewrite lookup_insert_ne.
Qed.

Lemma document_store_updates_witness :
  handleMessage (λ _, undeclaredProgram) (λ _, []) ParseError.Detail
    (λ _, DidOpenParams.mk "u" "t") (λ _, DidChangeParams.mk "u" [])
    (λ _, queryAt 0 0) (λ _, queryAt 0 0) (oneDocument "src")
    (Request.mk None "textDocument/didOpen" "null")
  = Continue (<["u" := "t"]> (oneDocument "src"))
      [diagnosticsFor (λ _, []) ParseError.Detail "u" "t"].
Proof.
  destruct (document_store_updates (λ _, undeclaredProgram) (λ _, [])
              ParseError.Detail (λ _, DidOpenParams.mk "u" "t")
              (λ _, DidChangeParams.mk "u" []) (λ _, queryAt 0 0) (λ _, queryAt 0 0)
              (oneDocument "src")
              (Request.mk None "textDocument/didOpen" "null")) as (_ & Hopen & _).
  apply Hopen. reflexivity.
Defined.

Lemma setType_same sym : setType sym (Symbol.Type_ sym) = sym.
Proof. by destruct sym. Qed.

(** X17: a hover on an identifier that the root binds shows the symbol
    with its declared type and, when the declaration has no type, with
    the type inferred from its initializer in the root scope; without
    both, or when the inference fails, the nil type stays, which is
    rendered as "unknown". *)
Theorem hover_shows_declared_or_inferred_type
  (ParseProgram : string → list Statement) (documents : gmap string string)
  (id : option Z) (params : QueryParams.t) (text : string)
  (ident : Identifier.t) (sym : Symbol.t) :
  documents !! QueryParams.URI params = Some text →
  text ≠ EmptyString →
  findIdentAt (ParseProgram text) (QueryParams.Position params) = Ok (Some ident) →
  Resolve (BuildSymbols (ParseProgram text)).1 (Some 0%nat) (Identifier.Value ident)
  = Some sym →
  handleHover ParseProgram documents id params
  = Ok (sendResponse id
          (HoverValue "markdown"
             (hoverFromSymbol
                (setType sym (shownType (BuildSymbols (ParseProgram text)).1 0 sym)))))
  ∧ typeNodeToString NilType = "unknown".
Proof.
  intros Hdoc Htext Hfind Hres. split; [|done].
  assert ((text =? EmptyString)%string = false) as Hne by (by apply String.eqb_neq).
  unfold handleHover. rewrite Hdoc. simpl. rewrite Hne.
  rewrite BuildSymbols_eq in *. simpl in *. rewrite Hfind. simpl. rewrite Hres.
  do 3 f_equal. unfold shownType.
  destruct (isNil (Symbol.Type_ sym)) eqn:Hnil; simpl;
    [|by rewrite setType_same].
  apply isNil_true in Hnil.
  destruct (isNilExpr (Symbol.Value sym)) eqn:Hv; simpl.
  - destruct (Symbol.Value sym); try done. simpl.
    by rewrite <- Hnil, setType_same.
  - destruct (isNil (inferExprType _ _ _)) eqn:Hi; simpl; [|done].
    apply isNil_true in Hi. rewrite Hi. by rewrite <- Hnil, setType_same.
Qed.

Lemma hover_shows_declared_or_inferred_type_witness :
  handleHover (λ _, inferredProgram) (oneDocument "src") (Some 1) (queryAt 1 0)
  = Ok [ResponseMsg (Response.mk "2.0" 1 (HoverValue "markdown" (fence "egg n int")))].
Proof.
  destruct (hover_shows_declared_or_inferred_type (λ _, inferredProgram)
              (oneDocument "src") (Some 1) (queryAt 1 0) "src" (mkIdent "n" 2 2)
              (Symbol.mk SymVar "n" (Some (mkIdent "n" 1 6)) NilType (IntLiteral 1) None))
    as [Hhover _].
  - reflexivity.
  - discriminate.
  - reflexivity.
  - reflexivity.
  - rewrite Hhover. reflexivity.
Defined.

(** Where the builder can name the fields of a struct type, the position
    resolver, which skips the nil fields, gives the same text. *)
Lemma buildFieldNames_walk fields :
  ∀ acc s, buildFieldNames fields acc = Ok s → walkFieldNames fields acc = s.
Proof.
  induction fields as [|f rest IH]; intros acc s H; simpl in *.
  - congruence.
  - destruct f as [[[name|]]|]; try discriminate. by apply IH.
Qed.

(** X18: the builder and the position resolver each compute the name of
    the type of a type statement with code of their own.  Whenever the
    builder computes a name and so records the type, the resolver
    answers, at every position, the identifier with that same name and
    with the node of the statement: the two copies agree, and the name
    the resolver hands to the queries is the name of the type recorded
    for the statement, not the name that the statement declares. *)
Theorem type_statement_names_agree
  (scope : nat) (h : Heap) (sc : Scope.t) (pos : Position.t)
  (base : NodeBase.t) (n : Identifier.t) (t : TypeNode) (typeName : string) :
  heap_wf h →
  h !! scope = Some sc →
  Scope.Symbols sc !! Identifier.Value n = None →
  buildTypeName t = Ok typeName →
  walkForIdent pos (TypeStatement base (Some n) t)
  = Ok (Some (Identifier.mk base typeName))
  ∧ ∃ sym,
      Resolve (buildInScope scope [TypeStatement base (Some n) t] h).1
        (Some scope) (Identifier.Value n) = Some sym
      ∧ Symbol.Type_ sym = IdentType base typeName
      ∧ typeNodeToString (Symbol.Type_ sym) = typeName.
Proof.
  intros Hwf Hsc Hfree Htn. split.
  - destruct t as [| b nm | elem | fields |]; simpl in Htn; try discriminate.
    + by simplify_eq.
    + destruct (buildFieldNames fields EmptyString) as [s|] eqn:E;
        simpl in Htn; [|discriminate].
      simplify_eq. simpl. by rewrite (buildFieldNames_walk _ _ _ E).
  - destruct (buildStmt_defines scope (TypeStatement base (Some n) t) h sc Hsc)
      as (sc1 & Hok & Hsc1 & Hbind).
    + split; [done|by exists typeName].
    + simpl. apply NoDup_singleton.
    + intros id ->%list_elem_of_singleton. exact Hfree.
    + destruct (Hbind n) as (sym & (Hlook & _) & (tn & Htn' & ->)).
      { apply list_elem_of_here. }
      assert (tn = typeName) as -> by congruence.
      exists (Symbol.mk SymUserType (Identifier.Value n) (Some n)
                (IdentType base typeName) NilExpr None).
      split_and!; [|done|done].
      assert (scope < length h)%nat as Hlt by (by eapply lookup_lt_Some).
      assert (heap_wf (buildInScope scope [TypeStatement base (Some n) t] h).1) as Hwf'.
      { eapply grows_wf; [done|]. by apply buildInScope_grows. }
      rewrite (Resolve_unfold _ scope sc1 _ Hwf'); [by rewrite Hlook|].
      rewrite buildInScope_single_fst. exact Hsc1.
Qed.

Lemma type_statement_names_agree_witness :
  walkForIdent (Position.mk 5 5)
    (TypeStatement zeroBase (Some (mkIdent "T" 1 7))
       (StructType [Some (StructField.mk (Some (mkIdent "a" 2 4)))]))
  = Ok (Some (Identifier.mk zeroBase ("struct {" +:+ newline +:+ "a" +:+ newline +:+ "}"))).
Proof.
  apply (type_statement_names_agree 0 [builtinScope] builtinScope (Position.mk 5 5)
           zeroBase (mkIdent "T" 1 7)
           (StructType [Some (StructField.mk (Some (mkIdent "a" 2 4)))])).
  - exact builtin_heap_wf.
  - reflexivity.
  - reflexivity.
  - reflexivity.
Defined.
